(** * StoryTell: the digital journal's entry classifier

    A shallow embedding of [digital_journal.py]: sentence splitting, keyword
    detection, name extraction and the construction of a [JournalEntry].

    Text is a list of 8-bit characters standing for the code points
    U+0000 .. U+00FF.  The character classes below are CPython's on that
    range: [str.isspace] (which is also what the pattern [\s] tests on [str]
    subjects), the pattern class [\w], and [str.lower].

    The three regular expressions of the module are kept as syntax
    ([Re.regex]) and run by a backtracking matcher that lists the ways a
    pattern matches at a position in the order in which Python's [re] module
    tries them; [re.search], [re.finditer] and [re.split] are built on it. *)

From Stdlib Require Import Ascii String.
From Stdlib Require Import List Bool Arith NArith ZArith Lia.
From Stdlib Require Import Sorting.Sorted Permutation.
Import ListNotations.
Local Open Scope list_scope.

(** ** Text and character classes *)

Definition str := list ascii.

Definition chars (s : string) : str := list_ascii_of_string s.
Arguments chars s%_string.

Definition code (c : ascii) : N := N_of_ascii c.

Definition in_range (lo hi : N) (c : ascii) : bool :=
  (lo <=? code c)%N && (code c <=? hi)%N.

(** [str.isspace] on one character, which is also [\s]:
    TAB..CR, FS..US, SPACE, NEL (U+0085) and NBSP (U+00A0). *)
Definition is_space (c : ascii) : bool :=
  in_range 9 13 c || in_range 28 32 c || (code c =? 133)%N || (code c =? 160)%N.

(** The classes [[A-Z]] and [[a-z]] of [NAME_PATTERN]. *)
Definition is_upper (c : ascii) : bool := in_range 65 90 c.
Definition is_lower (c : ascii) : bool := in_range 97 122 c.

(** The class [[.!?]] of the sentence separator. *)
Definition is_terminal (c : ascii) : bool :=
  (code c =? 46)%N || (code c =? 33)%N || (code c =? 63)%N.

(** [\w] on a [str] subject: alphanumeric characters and the underscore.
    Above U+007F these are the Latin-1 letters, the superscript digits and
    the vulgar fractions. *)
Definition is_word (c : ascii) : bool :=
  in_range 48 57 c || in_range 65 90 c || (code c =? 95)%N || in_range 97 122 c
  || (code c =? 170)%N || in_range 178 179 c || (code c =? 181)%N
  || in_range 185 186 c || in_range 188 190 c
  || in_range 192 214 c || in_range 216 246 c || in_range 248 255 c.

(** [str.lower] on one character: [A-Z] and the Latin-1 capitals U+00C0 ..
    U+00DE (without the multiplication sign U+00D7) move up by 32. *)
Definition lower_char (c : ascii) : ascii :=
  if in_range 65 90 c || in_range 192 214 c || in_range 216 222 c
  then ascii_of_N (code c + 32)
  else c.

Definition lower (s : str) : str := map lower_char s.

Definition str_eqb (a b : str) : bool :=
  if list_eq_dec ascii_dec a b then true else false.

(** ** [str.strip] *)

Fixpoint lstrip (s : str) : str :=
  match s with
  | c :: s' => if is_space c then lstrip s' else s
  | [] => []
  end.

Definition rstrip (s : str) : str := rev (lstrip (rev s)).

Definition strip (s : str) : str := rstrip (lstrip s).

(** ** String order and [sorted]

    Python compares strings code point by code point, a proper prefix being
    smaller. *)

Fixpoint str_ltb (a b : str) : bool :=
  match a, b with
  | [], [] => false
  | [], _ :: _ => true
  | _ :: _, [] => false
  | x :: a', y :: b' =>
      if (code x <? code y)%N then true
      else if (code y <? code x)%N then false
      else str_ltb a' b'
  end.

Definition str_leb (a b : str) : bool := negb (str_ltb b a).

Fixpoint insert_sorted (x : str) (l : list str) : list str :=
  match l with
  | [] => [x]
  | y :: l' => if str_leb x y then x :: l else y :: insert_sorted x l'
  end.

(** [sorted(...)] on a collection of strings. *)
Definition sorted (l : list str) : list str := fold_right insert_sorted [] l.

(** A Python [set] of strings built from a sequence: its distinct elements.
    The iteration order of a set is unspecified; the program only tests
    membership in its sets or sorts them, and neither depends on the order
    (see [sorted_perm_invariant]). *)
Fixpoint py_set (l : list str) : list str :=
  match l with
  | [] => []
  | x :: l' => if existsb (str_eqb x) l' then py_set l' else x :: py_set l'
  end.

Definition mem (x : str) (l : list str) : bool := existsb (str_eqb x) l.

(** [" ".join(...)]. *)
Fixpoint join (sep : str) (l : list str) : str :=
  match l with
  | [] => []
  | [x] => x
  | x :: l' => x ++ sep ++ join sep l'
  end.

(** ** The [re] module: patterns and the backtracking matcher *)

Module Re.

(** The pattern syntax the program uses. *)
Inductive regex : Type :=
| Eps                            (* the empty pattern *)
| Lit (c : ascii)                (* a literal (escaped) character *)
| Cls (p : ascii -> bool)        (* a character class: [[A-Z]], [\s], ... *)
| Bnd                            (* [\b] *)
| Behind (p : ascii -> bool)     (* [(?<=[...])], a one-character lookbehind *)
| Cat (r1 r2 : regex)            (* concatenation *)
| Plus (r : regex)               (* greedy [+] *)
| Star (r : regex)               (* greedy [*] *)
| Grp (r : regex).               (* the capturing group 1 *)

(** A position in the subject: the character just before it (none at the
    start of the subject), the text from it on, and what group 1 holds. *)
Record cursor : Type := Cursor {
  prev : option ascii;
  rest : str;
  group1 : option str
}.

Definition word_at (o : option ascii) : bool :=
  match o with
  | Some c => is_word c
  | None => false
  end.

(** [\b]: exactly one side of the position is a [\w] character; the two
    ends of the subject count as non-word. *)
Definition at_boundary (st : cursor) : bool :=
  xorb (word_at (prev st)) (word_at (hd_error (rest st))).

Definition take (p : ascii -> bool) (st : cursor) : list cursor :=
  match rest st with
  | c :: s' => if p c then [Cursor (Some c) s' (group1 st)] else []
  | [] => []
  end.

Definition look_behind (p : ascii -> bool) (st : cursor) : list cursor :=
  match prev st with
  | Some c => if p c then [st] else []
  | None => []
  end.

(** The text between two positions of one subject. *)
Definition consumed (st st' : cursor) : str :=
  firstn (length (rest st) - length (rest st')) (rest st).

Definition capture (st st' : cursor) : cursor :=
  Cursor (prev st') (rest st') (Some (consumed st st')).

(** A greedy repetition: one more round of the body is tried before
    stopping here.  A round that consumes nothing is not taken (no repeated
    body of this program can match the empty string); every round taken
    shortens the rest, so [length (rest st)] rounds of fuel never run out. *)
Fixpoint greedy (step : cursor -> list cursor) (fuel : nat) (st : cursor)
  : list cursor :=
  match fuel with
  | O => [st]
  | S n =>
      flat_map (fun st' =>
                  if length (rest st') <? length (rest st)
                  then greedy step n st' else [])
               (step st)
      ++ [st]
  end.

(** [rmatch r st]: the positions at which a match of [r] started at [st] can
    end, in the order in which the backtracking matcher reaches them. *)
Fixpoint rmatch (r : regex) (st : cursor) : list cursor :=
  match r with
  | Eps => [st]
  | Lit c => take (Ascii.eqb c) st
  | Cls p => take p st
  | Bnd => if at_boundary st then [st] else []
  | Behind p => look_behind p st
  | Cat r1 r2 => flat_map (rmatch r2) (rmatch r1 st)
  | Plus r1 =>
      flat_map (greedy (rmatch r1) (length (rest st))) (rmatch r1 st)
  | Star r1 => greedy (rmatch r1) (length (rest st)) st
  | Grp r1 => map (capture st) (rmatch r1 st)
  end.

(** [re.escape(word)] as a pattern: the characters of [word], literally. *)
Definition escape (w : str) : regex :=
  fold_right (fun c r => Cat (Lit c) r) Eps w.

(** A match object: the text skipped before the match, [group(0)],
    [group(1)] and the position after the match. *)
Record found : Type := Found {
  gap : str;
  text : str;
  grp1 : option str;
  after : cursor
}.

Definition skip (c : ascii) (f : found) : found :=
  Found (c :: gap f) (text f) (grp1 f) (after f).

Definition shorter (s : str) (st : cursor) : bool :=
  length (rest st) <? length s.

(** The scan of [re.search]: the first way to match at the leftmost
    position that has one.  With [must_advance] (the scanner sets it after
    an empty match) an empty match at the first position is passed over. *)
Fixpoint search (r : regex) (must_advance : bool) (pv : option ascii)
  (s : str) : option found :=
  let st := Cursor pv s None in
  let ends := rmatch r st in
  match (if must_advance then filter (shorter s) ends else ends) with
  | st' :: _ => Some (Found [] (consumed st st') (group1 st') st')
  | [] =>
      match s with
      | c :: s' => option_map (skip c) (search r false (Some c) s')
      | [] => None
      end
  end.

(** The scanner behind [finditer] and [split]: successive matches, each
    search resuming where the last match ended, and the text left after the
    last one. *)
Fixpoint scan (fuel : nat) (r : regex) (must_advance : bool)
  (pv : option ascii) (s : str) : list found * str :=
  match fuel with
  | O => ([], s)
  | S n =>
      match search r must_advance pv s with
      | None => ([], s)
      | Some f =>
          let (fs, tl) :=
            scan n r (length (text f) =? 0) (prev (after f)) (rest (after f))
          in (f :: fs, tl)
      end
  end.

(** Two searches in a row move on by at least one character, so this much
    fuel is never used up (see [scan_fuel]). *)
Definition scan_all (r : regex) (s : str) : list found * str :=
  scan (2 * length s + 2) r false None s.

(** [re.search(r, s)] as a truth value. *)
Definition matches (r : regex) (s : str) : bool :=
  match search r false None s with
  | Some _ => true
  | None => false
  end.

(** [r.finditer(s)]. *)
Definition finditer (r : regex) (s : str) : list found := fst (scan_all r s).

(** [re.split(r, s)] for a pattern without capturing groups: the texts
    between the matches, then the text after the last match. *)
Definition split (r : regex) (s : str) : list str :=
  map gap (fst (scan_all r s)) ++ [snd (scan_all r s)].

End Re.

Import Re.

(** ** The vocabularies *)

Definition FEELING_KEYWORDS : list str :=
  map chars
    ["happy"; "joy"; "joyful"; "glad"; "excited"; "content"; "peaceful";
     "sad"; "upset"; "angry"; "frustrated"; "anxious"; "nervous"; "worried";
     "calm"; "relaxed"; "tired"; "exhausted"; "stressed"; "grateful";
     "thankful"; "lonely"; "confident"; "proud"; "hopeful"]%string.

Definition EVENT_KEYWORDS : list str :=
  map chars
    ["meeting"; "birthday"; "anniversary"; "party"; "presentation";
     "conference"; "interview"; "deadline"; "vacation"; "trip"; "wedding";
     "graduation"; "celebration"; "appointment"; "game"; "practice";
     "ceremony"]%string.

Definition HEALTH_KEYWORDS : list str :=
  map chars
    ["exercise"; "workout"; "gym"; "run"; "running"; "walk"; "walking";
     "yoga"; "meditation"; "doctor"; "dentist"; "medicine"; "medication";
     "pill"; "headache"; "stomach"; "flu"; "cold"; "fever"; "pain"; "ache";
     "injury"; "therapy"; "sleep"; "rest"; "hydrate"; "hydrated";
     "nutrition"; "diet"]%string.

Definition SITUATION_KEYWORDS : list str :=
  map chars
    ["work"; "office"; "project"; "school"; "class"; "lesson"; "family";
     "friends"; "home"; "travel"; "commute"; "study"; "exam"; "shopping";
     "errand"; "cooking"; "cleaning"; "house"; "weather"; "rain"; "sunny";
     "storm"]%string.

Definition STOP_WORDS : list str :=
  map chars
    ["I"; "We"; "My"; "The"; "A"; "An"; "It"; "He"; "She"; "They"; "Today";
     "Tonight"; "Morning"; "Evening"; "Afternoon"; "Later"; "Yesterday";
     "Tomorrow"; "Monday"; "Tuesday"; "Wednesday"; "Thursday"; "Friday";
     "Saturday"; "Sunday"]%string.

(** ** The patterns *)

(** [NAME_PATTERN], written here with blanks between its parts:
    [\b ( [A-Z][a-z]+ (?: \s [A-Z][a-z]+ )* ) \b].  [title_word] is its
    [[A-Z][a-z]+]. *)
Definition title_word : regex := Cat (Cls is_upper) (Plus (Cls is_lower)).

Definition NAME_PATTERN : regex :=
  Cat Bnd
      (Cat (Grp (Cat title_word (Star (Cat (Cls is_space) title_word))))
           Bnd).

(** The separator of [sentence_split]: [(?<=[.!?]) \s+]. *)
Definition SENTENCE_END : regex :=
  Cat (Behind is_terminal) (Plus (Cls is_space)).

(** The pattern of [detect_keywords]: [\b], the escaped word, [\b]. *)
Definition whole_word (word : str) : regex :=
  Cat Bnd (Cat (escape word) Bnd).

(** ** The functions of the module *)

Definition nonempty (s : str) : bool :=
  match s with
  | [] => false
  | _ :: _ => true
  end.

Definition sentence_split (text : str) : list str :=
  let sentences := Re.split SENTENCE_END (strip text) in
  map strip (filter (fun sentence => nonempty (strip sentence)) sentences).

Definition detect_keywords (sentence : str) (keywords : list str) : bool :=
  let normalized := lower sentence in
  existsb (fun word => Re.matches (whole_word word) normalized) keywords.

(** [match.group(1)]; group 1 takes part in every match of [NAME_PATTERN]
    (see [name_group1]). *)
Definition group_1 (m : found) : str :=
  match grp1 m with
  | Some g => g
  | None => []
  end.

(** [extract_people] with the stop words as a parameter. *)
Definition extract_people_with (stop_words : list str) (text : str)
  : list str :=
  let candidates :=
    py_set (filter (fun g => negb (mem g stop_words))
                   (map group_1 (Re.finditer NAME_PATTERN text)))
  in sorted candidates.

Definition extract_people (text : str) : list str :=
  extract_people_with STOP_WORDS text.

(** ** Timestamps *)

(** A [datetime]: its fields, and the UTC offset in microseconds of an aware
    one. *)
Record datetime : Type := Datetime {
  year : N; month : N; day : N;
  hour : N; minute : N; second : N; microsecond : N;
  utcoffset : option Z
}.

(** [w] decimal digits, zero padded: [%0wd] on a number below [10 ^ w]. *)
Fixpoint dec (w : nat) (n : N) : str :=
  match w with
  | O => []
  | S w' => dec w' (n / 10) ++ [ascii_of_N (48 + n mod 10)]
  end.

Definition format_offset (off : option Z) : str :=
  match off with
  | None => []
  | Some us =>
      let sign := if (us <? 0)%Z then chars "-" else chars "+" in
      let a := Z.to_N (Z.abs us) in
      let hh := (a / 3600000000)%N in
      let r := (a mod 3600000000)%N in
      let mm := (r / 60000000)%N in
      let ss := (r mod 60000000)%N in
      sign ++ dec 2 hh ++ chars ":" ++ dec 2 mm
      ++ (if (ss =? 0)%N then []
          else chars ":" ++ dec 2 (ss / 1000000)
               ++ (if (ss mod 1000000 =? 0)%N then []
                   else chars "." ++ dec 6 (ss mod 1000000)))
  end.

(** [timestamp.isoformat(timespec="seconds")] *)
Definition isoformat_seconds (t : datetime) : str :=
  dec 4 (year t) ++ chars "-" ++ dec 2 (month t) ++ chars "-" ++ dec 2 (day t)
  ++ chars "T"
  ++ dec 2 (hour t) ++ chars ":" ++ dec 2 (minute t) ++ chars ":"
  ++ dec 2 (second t)
  ++ format_offset (utcoffset t).

(** ** Journal entries *)

Record JournalEntry : Type := Entry {
  raw_entry : str;
  timestamp : str;
  feelings : list str;
  events : list str;
  health : list str;
  situations : list str;
  people : list str
}.

(** [JournalEntry.from_text].  [now] is what [datetime.now()] would return;
    [timestamp or datetime.now()] reads the clock only when no timestamp is
    given (a [datetime] is never falsy). *)
Definition from_text (entry_text : str) (timestamp : option datetime)
  (now : datetime) : JournalEntry :=
  let timestamp :=
    match timestamp with
    | Some t => t
    | None => now
    end in
  let sentences := sentence_split entry_text in
  let feelings :=
    filter (fun s => detect_keywords s FEELING_KEYWORDS) sentences in
  let events :=
    filter (fun s => detect_keywords s EVENT_KEYWORDS) sentences in
  let health :=
    filter (fun s => detect_keywords s HEALTH_KEYWORDS) sentences in
  let categorized_sentences := py_set (feelings ++ events ++ health) in
  let situations :=
    filter (fun s => negb (mem s categorized_sentences)
                     && detect_keywords s SITUATION_KEYWORDS)
           sentences in
  let people := extract_people entry_text in
  Entry (strip entry_text) (isoformat_seconds timestamp)
        feelings events health situations people.

(** ** The iteration order of sets

    The vocabularies are sets, and so are the candidates of
    [extract_people]: [any] runs over a vocabulary and [sorted] over the
    candidates.  Python leaves the order in which a set is iterated to the
    interpreter; for a set of strings it changes with the hash seed of the
    process.  An [iteration] says, for every set, in which order it is
    iterated; [from_text_in] is [from_text] with the sets iterated that way
    (tests of membership do not iterate). *)
Definition iteration : Type := list str -> list str.

Definition iterates (order : iteration) : Prop :=
  forall s, Permutation (order s) s.

Definition extract_people_in (order : iteration) (text : str) : list str :=
  let candidates :=
    py_set (filter (fun g => negb (mem g STOP_WORDS))
                   (map group_1 (Re.finditer NAME_PATTERN text)))
  in sorted (order candidates).

Definition from_text_in (order : iteration) (entry_text : str)
  (timestamp : option datetime) (now : datetime) : JournalEntry :=
  let timestamp :=
    match timestamp with
    | Some t => t
    | None => now
    end in
  let sentences := sentence_split entry_text in
  let feelings :=
    filter (fun s => detect_keywords s (order FEELING_KEYWORDS)) sentences in
  let events :=
    filter (fun s => detect_keywords s (order EVENT_KEYWORDS)) sentences in
  let health :=
    filter (fun s => detect_keywords s (order HEALTH_KEYWORDS)) sentences in
  let categorized_sentences := py_set (feelings ++ events ++ health) in
  let situations :=
    filter (fun s => negb (mem s categorized_sentences)
                     && detect_keywords s (order SITUATION_KEYWORDS))
           sentences in
  let people := extract_people_in order entry_text in
  Entry (strip entry_text) (isoformat_seconds timestamp)
        feelings events health situations people.

(** ** Properties in the words of the specification *)

(** The last character of [t], or [pv] when [t] is empty: the character
    before the position reached by reading [t] from a position that has
    [pv] before it. *)
Definition last_char (pv : option ascii) (t : str) : option ascii :=
  fold_left (fun _ c => Some c) t pv.

(** A word boundary between the text [before] and the text [behind]. *)
Definition boundary (before behind : str) : Prop :=
  xorb (word_at (last_char None before)) (word_at (hd_error behind)) = true.

(** [word] occurs in [sentence] as a whole word, letter case aside: some
    stretch of the sentence spells the word up to case and has a word
    boundary at each end. *)
Definition occurs_whole (word sentence : str) : Prop :=
  exists before u behind,
    sentence = before ++ u ++ behind /\
    lower u = lower word /\
    boundary before (u ++ behind) /\
    boundary (before ++ u) behind.

Definition is_lowercase (w : str) : Prop := lower w = w.

(** Whitespace normalisation at the sentence boundaries: every run of
    whitespace that directly follows a terminal mark becomes one space.
    [skipping] says that such a run is being read, [after_mark] that the
    last character was a terminal mark. *)
Fixpoint normalize_from (skipping after_mark : bool) (s : str) : str :=
  match s with
  | [] => []
  | c :: s' =>
      if is_space c then
        if skipping then normalize_from true false s'
        else if after_mark then " "%char :: normalize_from true false s'
        else c :: normalize_from false false s'
      else c :: normalize_from false (is_terminal c) s'
  end.

Definition normalize_boundaries (s : str) : str :=
  normalize_from false false s.

(** No whitespace at either end. *)
Definition trimmed (s : str) : Prop :=
  (forall c s', s = c :: s' -> is_space c = false) /\
  (forall c s', s = s' ++ [c] -> is_space c = false).

Definition all_space (s : str) : Prop := Forall (fun c => is_space c = true) s.

Definition no_terminal (s : str) : Prop :=
  Forall (fun c => is_terminal c = false) s.

(** A Titlecase word as [NAME_PATTERN] has it: a capital and then one or
    more small letters. *)
Definition titlecase (w : str) : Prop :=
  exists u ls,
    w = u :: ls /\ is_upper u = true /\ ls <> [] /\
    Forall (fun c => is_lower c = true) ls.

(** Titlecase words with exactly one whitespace character between
    neighbours: a first word and a tail that repeats "one whitespace
    character, one word". *)
Inductive run_tail : str -> Prop :=
| tail_nil : run_tail []
| tail_more sp w r :
    is_space sp = true -> titlecase w -> run_tail r ->
    run_tail (sp :: w ++ r).

Definition name_run (t : str) : Prop :=
  exists w r, t = w ++ r /\ titlecase w /\ run_tail r.







(** The whitespace-separated tokens of a text ([str.split()]). *)
Fixpoint words_acc (acc : str) (s : str) : list str :=
  match s with
  | [] => if nonempty acc then [rev acc] else []
  | c :: s' =>
      if is_space c
      then (if nonempty acc then rev acc :: words_acc [] s' else words_acc [] s')
      else words_acc (c :: acc) s'
  end.

Definition words (s : str) : list str := words_acc [] s.

(** Strict code point order, as a relation. *)
Definition str_lt (a b : str) : Prop := str_ltb a b = true.

(** ** Auxiliary definitions for the proofs *)

(** The language of a pattern, assertions aside. *)
Fixpoint lang (r : regex) (t : str) : Prop :=
  match r with
  | Eps => t = []
  | Lit c => t = [c]
  | Cls p => exists c, t = [c] /\ p c = true
  | Bnd => t = []
  | Behind _ => t = []
  | Cat r1 r2 => exists t1 t2, t = t1 ++ t2 /\ lang r1 t1 /\ lang r2 t2
  | Plus r1 =>
      exists t1 ts, t = t1 ++ concat ts /\ lang r1 t1 /\ Forall (lang r1) ts
  | Star r1 => exists ts, t = concat ts /\ Forall (lang r1) ts
  | Grp r1 => lang r1 t
  end.

(** Reading [t] takes the position [st] to the position [st']. *)
Definition moves (st : cursor) (t : str) (st' : cursor) : Prop :=
  rest st = t ++ rest st' /\ prev st' = last_char (prev st) t.

(** The positions a greedy repetition of a character class reaches, the
    farthest first. *)
Fixpoint runs (p : ascii -> bool) (pv : option ascii) (s : str)
  (g : option str) : list cursor :=
  match s with
  | c :: s' =>
      if p c then runs p (Some c) s' g ++ [Cursor pv s g]
      else [Cursor pv s g]
  | [] => [Cursor pv s g]
  end.

(** The longest prefix of [s] in the class [p], and what follows it. *)
Fixpoint take_run (p : ascii -> bool) (s : str) : str :=
  match s with
  | c :: s' => if p c then c :: take_run p s' else []
  | [] => []
  end.

Fixpoint drop_run (p : ascii -> bool) (s : str) : str :=
  match s with
  | c :: s' => if p c then drop_run p s' else s
  | [] => []
  end.

(** [re.split] at the sentence separator, written as one pass over the
    text.  The head of the result is the piece being read; [skipping] says
    that a separator is being read, [after_mark] that the last character
    was a terminal mark. *)
Definition push (c : ascii) (l : list str) : list str :=
  match l with
  | x :: l' => (c :: x) :: l'
  | [] => [[c]]
  end.

Fixpoint cut (skipping after_mark : bool) (s : str) : list str :=
  match s with
  | [] => [[]]
  | c :: s' =>
      if is_space c then
        if skipping then cut true false s'
        else if after_mark then [] :: cut true false s'
        else push c (cut false false s')
      else push c (cut false (is_terminal c) s')
  end.

Definition terminal_at (o : option ascii) : bool :=
  match o with
  | Some c => is_terminal c
  | None => false
  end.

(** What is left of [s] after its prefix [w], if [w] is a prefix. *)
Fixpoint after_prefix (w s : str) : option str :=
  match w, s with
  | [], _ => Some s
  | c :: w', d :: s' => if Ascii.eqb c d then after_prefix w' s' else None
  | _ :: _, [] => None
  end.

(** The repeated part of [NAME_PATTERN]: one whitespace character and a
    Titlecase word. *)
Definition next_word : regex := Cat (Cls is_space) title_word.


(** A text that does not end in whitespace, and a piece that can stand as
    a sentence. *)
Definition ends_clean (s : str) : Prop :=
  forall c s', s = s' ++ [c] -> is_space c = false.

Definition sentence_like (x : str) : Prop := trimmed x /\ x <> [].

(** The weak order that [sorted] compares with. *)
Definition str_le (a b : str) : Prop := str_leb a b = true.

(** The inputs of the examples. *)
Definition T0 : datetime := Datetime 2024 5 17 8 30 0 0 None.

Definition scenario2 : str :=
  chars "Today was my birthday party and I felt so grateful. It rained all day though.".

(** ** Further notions about sentences and names *)

(** [x] stands in [s] as a contiguous piece. *)
Definition substring (x s : str) : Prop := exists a b, s = a ++ x ++ b.

(** A place where [sentence_split] would cut: a terminal mark directly
    followed by whitespace. *)
Definition has_boundary (s : str) : Prop :=
  exists a m w b,
    s = a ++ m :: w :: b /\ is_terminal m = true /\ is_space w = true.

Definition ends_in_mark (s : str) : Prop :=
  exists s' c, s = s' ++ [c] /\ is_terminal c = true.

(** The same two notions as one pass over the text; [after_mark] says that
    the character before the text is a terminal mark. *)
Fixpoint sep_free (after_mark : bool) (x : str) : bool :=
  match x with
  | [] => true
  | c :: x' =>
      if after_mark && is_space c then false else sep_free (is_terminal c) x'
  end.

Fixpoint ends_mark (after_mark : bool) (x : str) : bool :=
  match x with
  | [] => after_mark
  | c :: x' => ends_mark (is_terminal c) x'
  end.

Fixpoint init_marks (l : list str) : Prop :=
  match l with
  | [] => True
  | x :: l' => (l' <> [] -> ends_mark false x = true) /\ init_marks l'
  end.

(** ** The journal file and the command line

    The journal file is modelled by what it holds for the program: it is
    missing, or [json.load] raises on it, or [json.load] returns a JSON
    document.  [json.dump] either writes the document it is given, which
    [json.load] then reads back as the same document, or raises part of
    the way, after the file has been opened for writing and so emptied.
    Failures of the file system itself (a directory that cannot be made, a
    file that cannot be opened, a full disk) are outside the model. *)

(** JSON documents as Python has them after [json.load]; a [dict] keeps its
    keys in insertion order, which is the order [json.dump] writes them in.
    Numbers are kept as their text: the program never looks into one. *)
#[warnings="-register-all"]
Inductive json : Type :=
| JNull
| JBool (b : bool)
| JNum (repr : str)
| JStr (s : str)
| JList (items : list json)
| JDict (fields : list (str * json)).

(** What [json.load] and [json.dump] raise: [JSONDecodeError] on text that
    is no JSON, [UnicodeDecodeError] on bytes that are no UTF-8,
    [UnicodeEncodeError] on a string that UTF-8 cannot encode (one with a
    lone surrogate), [ValueError] on a number of too many digits and
    [RecursionError] on a document nested too deeply. *)
Inductive codec_error : Type :=
| JSONDecodeError
| UnicodeDecodeError
| UnicodeEncodeError
| ValueError
| RecursionError.

(** An [Unreadable] file exists and [json.load] raises [e] on it. *)
Inductive journal_file : Type :=
| Missing
| Unreadable (e : codec_error)
| Holds (doc : json).

Inductive exn : Type :=
| Codec (e : codec_error)
| AttributeError
| SystemExit (message : str).

Inductive result (A : Type) : Type :=
| Return (a : A)
| Raise (e : exn).
Arguments Return {A} a.
Arguments Raise {A} e.

(** [d.get(k)], [d[k] = v] and [d.setdefault(k, default)] on a [dict]. *)
Fixpoint dict_get (k : str) (d : list (str * json)) : option json :=
  match d with
  | [] => None
  | (k', v) :: d' => if str_eqb k k' then Some v else dict_get k d'
  end.

Fixpoint dict_set (k : str) (v : json) (d : list (str * json))
  : list (str * json) :=
  match d with
  | [] => [(k, v)]
  | (k', v') :: d' =>
      if str_eqb k k' then (k', v) :: d' else (k', v') :: dict_set k v d'
  end.

Definition setdefault (k : str) (default : json) (d : list (str * json))
  : json * list (str * json) :=
  match dict_get k d with
  | Some v => (v, d)
  | None => (default, dict_set k default d)
  end.

(** [JournalEntry.to_dict] *)
Definition to_dict (e : JournalEntry) : json :=
  JDict [(chars "timestamp", JStr (timestamp e));
         (chars "raw_entry", JStr (raw_entry e));
         (chars "feelings", JList (map JStr (feelings e)));
         (chars "events", JList (map JStr (events e)));
         (chars "health", JList (map JStr (health e)));
         (chars "situations", JList (map JStr (situations e)));
         (chars "people", JList (map JStr (people e)))].

Definition load_journal (file : journal_file) : result json :=
  match file with
  | Missing => Return (JDict [(chars "entries", JList [])])
  | Unreadable e => Raise (Codec e)
  | Holds doc => Return doc
  end.

Section Journal.

(** What [json.dump] raises on a document, if anything, and what
    [json.load] raises on the file it leaves then.  Which documents
    [json.dump] cannot write is left to the interpreter: one that holds a
    lone surrogate, for one.  When it raises, the file was emptied when it
    was opened and holds the beginning of the document as far as it was
    written; that is no JSON document, so the file is left [Unreadable]. *)
Variable dump_error : json -> option (codec_error * codec_error).

Definition save_journal (data : json) : result unit * journal_file :=
  match dump_error data with
  | None => (Return tt, Holds data)
  | Some (raised, after) => (Raise (Codec raised), Unreadable after)
  end.

(** [add_entry].  Only a [dict] has [setdefault] and only a [list] has
    [append]; anything else raises [AttributeError] before the file is
    written.  The list that [setdefault] returns is the one the [dict]
    holds, so appending to it changes the [dict]: the longer list is stored
    back under the key. *)
Definition add_entry (entry_text : str) (timestamp : option datetime)
  (now : datetime) (file : journal_file) : result JournalEntry * journal_file :=
  match load_journal file with
  | Raise e => (Raise e, file)
  | Return journal =>
      let entry := from_text entry_text timestamp now in
      match journal with
      | JDict d =>
          let (entries, d1) := setdefault (chars "entries") (JList []) d in
          match entries with
          | JList items =>
              let journal' :=
                JDict (dict_set (chars "entries")
                                (JList (items ++ [to_dict entry])) d1) in
              match save_journal journal' with
              | (Return _, file') => (Return entry, file')
              | (Raise e, file') => (Raise e, file')
              end
          | _ => (Raise AttributeError, file)
          end
      | _ => (Raise AttributeError, file)
      end
  end.


(** What [parse_arguments] hands to [main]: the two optional flags. *)
Record Namespace : Type := Args {
  arg_entry : option str;
  arg_timestamp : option str
}.

(** What [main] prints: a line of text, or the text [json.dumps] gives for
    a document. *)
Inductive output : Type :=
| Print (line : str)
| PrintJson (doc : json).

(** The truth value of an optional string: [None] and the empty string are
    falsy. *)
Definition truthy (o : option str) : bool :=
  match o with
  | Some (_ :: _) => true
  | _ => false
  end.

Definition value (o : option str) : str :=
  match o with
  | Some s => s
  | None => []
  end.

Definition PROMPT : str :=
  chars "Enter your journal entry. Finish with Ctrl-D (or Ctrl-Z on Windows) and press Enter:".

Definition SAVED : str :=
  chars "Journal entry saved! Here's the structured summary:" ++ ["010"%char].

Section Main.

(** [datetime.fromisoformat], [None] standing for its [ValueError]. *)
Variable fromisoformat : str -> option datetime.

(** [main].  [stdin] is what [sys.stdin.read()] returns, [None] standing
    for a [KeyboardInterrupt] while reading.  The result is how the run
    ends, what the journal file holds afterwards and what was printed. *)
Definition main (args : Namespace) (stdin : option str) (now : datetime)
  (file : journal_file) : result unit * journal_file * list output :=
  let (read, printed) :=
    if truthy (arg_entry args) then (Return (value (arg_entry args)), [])
    else (match stdin with
          | Some t => Return t
          | None => Raise (SystemExit (chars "Journal entry cancelled."))
          end, [Print PROMPT]) in
  match read with
  | Raise e => (Raise e, file, printed)
  | Return entry_text =>
      let entry_text := strip entry_text in
      if negb (nonempty entry_text)
      then (Raise (SystemExit (chars "No journal entry provided.")),
            file, printed)
      else
        let parsed :=
          if truthy (arg_timestamp args) then
            match fromisoformat (value (arg_timestamp args)) with
            | Some t => Return (Some t)
            | None =>
                Raise (SystemExit (chars "Invalid timestamp: "
                                   ++ value (arg_timestamp args)))
            end
          else Return None in
        match parsed with
        | Raise e => (Raise e, file, printed)
        | Return timestamp =>
            match add_entry entry_text timestamp now file with
            | (Raise e, file') => (Raise e, file', printed)
            | (Return entry, file') =>
                (Return tt, file',
                 printed ++ [Print SAVED; PrintJson (to_dict entry)])
            end
        end
  end.

End Main.

End Journal.


Definition keys (d : list (str * json)) : list str := map fst d.



(** Two positions that differ only in a stretch [b] of text that follows
    the subject of the second, and two matches that are the same match up to
    what comes after. *)
Definition padded (b : str) (x y : cursor) : Prop :=
  prev x = prev y /\ rest x = rest y ++ b /\ group1 x = group1 y.

Definition same_match (f1 f2 : found) : Prop :=
  gap f1 = gap f2 /\ text f1 = text f2 /\ grp1 f1 = grp1 f2.

(** * Logic Episodes: the text adventure

    A shallow embedding of [Logic_episodes.py].  The script talks to a
    terminal: what it reads is a list of input lines, what it does to the
    terminal is a list of events.  Its global variables are a record that
    the functions pass along; an exception ends the run. *)

From Stdlib Require DecimalString.

Module Episodes.

Definition nl : ascii := "010"%char.
Definition dq : ascii := "034"%char.

(** [int(s)] on a string: blanks around an optional sign and decimal digits,
    where single underscores may stand between digits.  The blanks that
    [int] passes over are TAB..CR, SPACE, NEL and NBSP. *)
Definition int_space (c : ascii) : bool :=
  in_range 9 13 c || (code c =? 32)%N || (code c =? 133)%N
  || (code c =? 160)%N.

Fixpoint digits (acc : Z) (after_digit : bool) (s : str) : option Z :=
  match s with
  | [] => if after_digit then Some acc else None
  | c :: s' =>
      if in_range 48 57 c
      then digits (10 * acc + (Z.of_N (code c) - 48)) true s'
      else if (code c =? 95)%N && after_digit then digits acc false s'
      else None
  end.

Definition int (s : str) : option Z :=
  let t := rev (drop_run int_space (rev (drop_run int_space s))) in
  match t with
  | c :: r =>
      if (code c =? 43)%N then digits 0 false r
      else if (code c =? 45)%N then option_map Z.opp (digits 0 false r)
      else digits 0 false t
  | [] => None
  end.

(** [str(n)] on an integer. *)
Definition str_of_Z (n : Z) : str :=
  chars (DecimalString.NilZero.string_of_int (Z.to_int n)).

(** What happens on the terminal. *)
Inductive event : Type :=
| Clear                       (* [os.system('clear')] *)
| Say (line : str)            (* [print] *)
| Ask (prompt : str)          (* the prompt of [input] *)
| Sleep (seconds : nat).      (* [time.sleep] *)

Record terminal : Type := Terminal {
  stdin : list str;           (* the lines not read yet *)
  screen : list event         (* what has happened, oldest first *)
}.

(** The global variables of the script. *)
Record globals : Type := Globals {
  name : str;
  age : Z;
  health : Z;
  game_over : bool;
  chance : Z;
  stage : Z
}.

Inductive failure : Type :=
| EOFError                    (* [input] at the end of the input *)
| ValueError                  (* [int] on something that is no integer *)
| Unfinished.                 (* the fuel of the [while] loop ran out *)

Inductive outcome (A : Type) : Type :=
| Ok (a : A)
| Err (e : failure).
Arguments Ok {A} a.
Arguments Err {A} e.

(** A piece of the script: it may read and change the globals and the
    terminal, and it returns a value or raises. *)
Definition run (A : Type) : Type :=
  globals -> terminal -> outcome A * globals * terminal.

Definition ret {A} (a : A) : run A := fun g t => (Ok a, g, t).

Definition bind {A B} (c : run A) (k : A -> run B) : run B :=
  fun g t =>
    match c g t with
    | (Ok a, g', t') => k a g' t'
    | (Err e, g', t') => (Err e, g', t')
    end.

Notation "x <- c1 ;; c2" := (bind c1 (fun x => c2))
  (at level 61, c1 at next level, right associativity).
Notation "c1 ;; c2" := (bind c1 (fun _ => c2))
  (at level 61, right associativity).

Definition emit (e : event) : run unit :=
  fun g t => (Ok tt, g, Terminal (stdin t) (screen t ++ [e])).

Definition print (words : list str) : run unit :=
  emit (Say (join [" "%char] words)).

Definition input (prompt : str) : run str :=
  fun g t =>
    match stdin t with
    | line :: more => (Ok line, g, Terminal more (screen t ++ [Ask prompt]))
    | [] => (Err EOFError, g, Terminal [] (screen t ++ [Ask prompt]))
    end.

Definition get {A} (field : globals -> A) : run A :=
  fun g t => (Ok (field g), g, t).

Definition set_health (v : Z) : run unit :=
  fun g t =>
    (Ok tt, Globals (name g) (age g) v (game_over g) (chance g) (stage g), t).

Definition set_game_over (v : bool) : run unit :=
  fun g t =>
    (Ok tt, Globals (name g) (age g) (health g) v (chance g) (stage g), t).

Definition set_chance (v : Z) : run unit :=
  fun g t =>
    (Ok tt, Globals (name g) (age g) (health g) (game_over g) v (stage g), t).

Definition set_stage (v : Z) : run unit :=
  fun g t =>
    (Ok tt, Globals (name g) (age g) (health g) (game_over g) (chance g) v, t).

Definition the_end : run bool :=
  set_game_over true ;;
  c <- get chance ;; set_chance (c + 1) ;;
  n <- get name ;; c <- get chance ;; s <- get stage ;;
  print [chars "Player"; n; chars "used"; str_of_Z c;
         chars "chances and went through"; str_of_Z s; chars "stages"] ;;
  emit (Sleep 2) ;;
  get game_over.

Definition show_health : run unit :=
  h <- get health ;;
  print [chars "Now, your health is"; str_of_Z h; chars "."].

Definition check_health : run unit :=
  h <- get health ;;
  if (h =? 0)%Z then
    print [chars "Sorry, your health reached 0, so you lost the game, unfortunately..."] ;;
    b <- the_end ;; set_game_over b
  else ret tt.

Definition train : run unit :=
  print [chars "You successfully entered the train. To be continued..."] ;;
  h <- get health ;;
  print [chars "You finished the game with"; str_of_Z h;
         chars "health points..."] ;;
  s <- get stage ;; set_stage (s + 1) ;;
  emit (Sleep 3) ;;
  b <- the_end ;; set_game_over b.

Definition railway : run unit :=
  print [[nl] ++ chars "On the right you`ve noticed girl attached to the rails with rods..."] ;;
  print [[nl] ++ chars "At the same time, you`ve been yelled at to enter the train because the boarding is going to end in a minute."] ;;
  print [[dq] ++ chars "I feel exhausted already, but I have no ticket nor money... What should I do?" ++ [dq] ++ chars " "] ;;
  a <- input ([nl] ++ chars "Would you choose to try to save the girl and stay in woods or get on the train and save yourself? (girl/train) ") ;;
  let ans2 := lower a in
  s <- get stage ;; set_stage (s + 1) ;;
  ans2 <- (if str_eqb ans2 (chars "health")
           then show_health ;;
                a <- input (chars "Enter the answer here: ") ;; ret (lower a)
           else ret ans2) ;;
  if str_eqb ans2 (chars "girl") then
    print [chars "You didn`t manage to untie the girl till the train started moving." ++ [nl] ++ chars " As you could no longer leave her alone, because she was beautiful as rose, you continued the saving procedure and " ++ [nl] ++ chars "you both were hit by the train which you could be in"] ;;
    b <- the_end ;; set_game_over b
  else if str_eqb ans2 (chars "train") then
    print [chars "You decided to get into the train..."] ;;
    train
  else
    print [chars "You entered an unknown word, so you lost..."] ;;
    c <- get chance ;; set_chance (c + 1) ;;
    emit (Sleep 2) ;;
    b <- the_end ;; set_game_over b.

(** One round of the [while] loop of [game]. *)
Definition round : run unit :=
  set_stage 0 ;;
  emit Clear ;;
  print [chars "It`s late evening in the woods. And you`re totally lost."] ;;
  print [[nl] ++ [dq] ++ chars "Who knew that an ordinary walk through the forest could take so looong." ++ [nl] ++ chars "Where should I go now?"] ;;
  print [chars "It`s already so dark, I cannot see further than 2 metres ahead..." ++ [nl] ++ chars "I have got sore throat while tried to seek for help..." ++ [dq]] ;;
  print [[nl] ++ chars "You hear some chattering on the left, but cannot hear the words, it could be people, but no one knows for sure..."] ;;
  print [chars "5 minutes after you`ve been deciding where to go you`ve seen blinding lights on the right..."] ;;
  a <- input ([nl] ++ chars "Which way you wanna go? (left/right) ") ;;
  let ans1 := lower a in
  s <- get stage ;; set_stage (s + 1) ;;
  ans1 <- (if str_eqb ans1 (chars "health")
           then show_health ;;
                a <- input (chars "Enter the answer here: ") ;; ret (lower a)
           else ret ans1) ;;
  if str_eqb ans1 (chars "right") then
    print [[nl] ++ [nl] ++ chars "Congrats, your story continues..."] ;;
    print [[nl] ++ chars "As you run further to the lights you noticed the railway, " ++ [nl] ++ chars "but sprained your ankle and lost 1 health in addition your speed is 2 times slower then it was before..."] ;;
    h <- get health ;; set_health (h - 1) ;;
    show_health ;;
    railway
  else if str_eqb ans1 (chars "left") then
    print [chars "There were witches, so they made you their slave and now you gather rare plants for their potions..."] ;;
    print [[nl] ++ chars "You lost... Game`s over."] ;;
    b <- the_end ;; set_game_over b
  else
    print [chars "You entered an unknown word, so you lost..."] ;;
    b <- the_end ;; set_game_over b.

(** [game]: the loop [while game_over != True], with fuel for the number of
    rounds (see [play_fuel]: one round is all that is ever played). *)
Fixpoint game (fuel : nat) : run unit :=
  over <- get game_over ;;
  if over then ret tt
  else match fuel with
       | O => fun g t => (Err Unfinished, g, t)
       | S n => round ;; game n
       end.

(** The body of the script once [name] and [age] are read and the globals
    are set. *)
Definition play (fuel : nat) : run unit :=
  a <- get age ;;
  if (12 <=? a)%Z then
    print [chars "Congrats, you may play " ++ [dq] ++ chars "Logic Episodes" ++ [dq] ++ chars " right now!"] ;;
    w <- input (chars "Do you wanna play? (y/n) ") ;;
    let wish_to_play := lower w in
    if str_eqb wish_to_play (chars "y") then
      set_game_over false ;;
      print [chars "Let`s begin!" ++ [nl]] ;;
      game fuel
    else
      print [chars "C U L8R"] ;;
      b <- the_end ;; set_game_over b
  else
    print [chars "Sorry, you`re too young to play this game"] ;;
    b <- the_end ;; set_game_over b.

(** The globals that are assigned when a run of the script ends: none
    while line 7 has not read the name, [name] alone while line 8 has not
    made an integer of the age, and all six from line 12 on (nothing can
    fail between lines 8 and 12). *)
Inductive assigned : Type :=
| NoGlobal
| NameOnly (name : str)
| AllGlobals (g : globals).

(** How a run of the script ends: the way it ended, the globals as they are
    then, and the terminal. *)
Record ending : Type := Ending {
  result : outcome unit;
  final : assigned;
  term : terminal
}.

(** The script, from its first line, on the given input lines. *)
Definition script_with (fuel : nat) (lines : list str) : ending :=
  let t0 := Terminal lines [Clear; Say (chars "Welcome to the " ++ [dq] ++ chars "Logic Episodes" ++ [dq] ++ chars "!")] in
  match lines with
  | [] => Ending (Err EOFError) NoGlobal
                 (Terminal [] (screen t0 ++ [Ask (chars "Enter your name: ")]))
  | n :: lines1 =>
      let t1 := Terminal lines1 (screen t0 ++ [Ask (chars "Enter your name: ")]) in
      match lines1 with
      | [] => Ending (Err EOFError) (NameOnly n)
                     (Terminal [] (screen t1 ++ [Ask (chars "Enter your age: ")]))
      | a :: lines2 =>
          let t2 := Terminal lines2 (screen t1 ++ [Ask (chars "Enter your age: ")]) in
          match int a with
          | None => Ending (Err ValueError) (NameOnly n) t2
          | Some years =>
              let '(r, g, t) := play fuel (Globals n years 10 false 0 0) t2 in
              Ending r (AllGlobals g) t
          end
      end
  end.

Definition script (lines : list str) : ending := script_with 1 lines.

(** ** Notions for the properties of the script *)

(** The line that [the_end] prints, with the globals as they are then. *)
Definition report (g : globals) : event :=
  Say (join [" "%char]
            [chars "Player"; name g; chars "used"; str_of_Z (chance g);
             chars "chances and went through"; str_of_Z (stage g);
             chars "stages"]).

(** From [t] to [t'] at most [k] lines were read, from the front of the
    input. *)
Definition reads (k : nat) (t t' : terminal) : Prop :=
  exists used, stdin t = used ++ stdin t' /\ length used <= k.

(** The last thing on the terminal is the report of [g'] and the two
    seconds of sleep after it. *)
Definition reported (g' : globals) (t' : terminal) : Prop :=
  exists before, screen t' = before ++ [report g'; Sleep 2].

Definition kept (g g' : globals) : Prop :=
  name g' = name g /\ age g' = age g.

(** Two runs that end alike: the same result, the same globals and the same
    input left. *)
Definition same_end (r1 r2 : outcome unit * globals * terminal) : Prop :=
  fst (fst r1) = fst (fst r2) /\ snd (fst r1) = snd (fst r2) /\
  stdin (snd r1) = stdin (snd r2).

(** The first run is the second one on input put to lower case. *)
Definition lowered (r1 r2 : outcome unit * globals * terminal) : Prop :=
  fst (fst r1) = fst (fst r2) /\ snd (fst r1) = snd (fst r2) /\
  screen (snd r1) = screen (snd r2) /\
  stdin (snd r1) = map lower (stdin (snd r2)).

(** The terminal once the name and the age are read. *)
Definition welcome : list event :=
  [Clear;
   Say (chars "Welcome to the " ++ [dq] ++ chars "Logic Episodes" ++ [dq] ++ chars "!");
   Ask (chars "Enter your name: "); Ask (chars "Enter your age: ")].

End Episodes.

(** * Proofs *)

(** ** Character classes *)

Ltac by_cases_on_char c :=
  destruct c as [[|] [|] [|] [|] [|] [|] [|] [|]]; vm_compute;
  try reflexivity; try discriminate; intros; try discriminate;
  try reflexivity.

Lemma terminal_not_space c : is_terminal c = true -> is_space c = false.
Proof. by_cases_on_char c. Qed.

Lemma space_not_word c : is_space c = true -> is_word c = false.
Proof. by_cases_on_char c. Qed.



Lemma upper_not_space c : is_upper c = true -> is_space c = false.
Proof. by_cases_on_char c. Qed.

Lemma lower_not_space c : is_lower c = true -> is_space c = false.
Proof. by_cases_on_char c. Qed.

Lemma lower_char_word c : is_word (lower_char c) = is_word c.
Proof. by_cases_on_char c. Qed.

Lemma lower_char_idem c : lower_char (lower_char c) = lower_char c.
Proof. by_cases_on_char c. Qed.

Lemma str_eqb_eq a b : str_eqb a b = true <-> a = b.
Proof.
  unfold str_eqb. destruct (list_eq_dec ascii_dec a b); split; congruence.
Qed.

Lemma mem_In x l : mem x l = true <-> In x l.
Proof.
  unfold mem. rewrite existsb_exists. split.
  - intros (y & Hy & E). apply str_eqb_eq in E. now subst.
  - intros H. exists x. split; [assumption | now apply str_eqb_eq].
Qed.

Lemma py_set_In x l : In x (py_set l) <-> In x l.
Proof.
  induction l as [|y l IH]; simpl; [tauto|].
  destruct (existsb (str_eqb y) l) eqn:E.
  - rewrite IH. split; [tauto|]. intros [->|H]; [|assumption].
    now apply (mem_In x l).
  - simpl. rewrite IH. tauto.
Qed.

Lemma py_set_NoDup l : NoDup (py_set l).
Proof.
  induction l as [|y l IH]; simpl; [constructor|].
  destruct (existsb (str_eqb y) l) eqn:E; [assumption|].
  constructor; [|assumption].
  rewrite py_set_In. intros H. apply (mem_In y l) in H. unfold mem in H.
  congruence.
Qed.

(** ** [strip] *)

Lemma lstrip_split s :
  exists a, s = a ++ lstrip s /\ all_space a.
Proof.
  induction s as [|c s (a & E & Ha)]; simpl.
  - exists []. split; [reflexivity | constructor].
  - destruct (is_space c) eqn:Hc.
    + exists (c :: a). split; [simpl; congruence | now constructor].
    + exists []. split; [reflexivity | constructor].
Qed.

Lemma lstrip_head s c s' : lstrip s = c :: s' -> is_space c = false.
Proof.
  induction s as [|d s IH]; simpl; [discriminate|].
  destruct (is_space d) eqn:Hd; [assumption|]. congruence.
Qed.

Lemma lstrip_fixed s :
  (forall c s', s = c :: s' -> is_space c = false) -> lstrip s = s.
Proof.
  destruct s as [|c s]; [reflexivity|]. intros H. simpl.
  now rewrite (H c s eq_refl).
Qed.

Lemma lstrip_all_space s : all_space s -> lstrip s = [].
Proof.
  induction 1 as [|c s Hc _ IH]; simpl; [reflexivity|]. now rewrite Hc.
Qed.

Lemma rstrip_split s :
  exists b, s = rstrip s ++ b /\ all_space b.
Proof.
  unfold rstrip. destruct (lstrip_split (rev s)) as (a & E & Ha).
  exists (rev a). split.
  - rewrite <- rev_app_distr, <- E. symmetry. apply rev_involutive.
  - apply Forall_rev. exact Ha.
Qed.

Lemma rstrip_last s c s' : rstrip s = s' ++ [c] -> is_space c = false.
Proof.
  unfold rstrip. intros H. apply (f_equal (@rev ascii)) in H.
  rewrite rev_involutive, rev_app_distr in H. simpl in H.
  eapply lstrip_head; eassumption.
Qed.

Lemma rstrip_fixed s :
  (forall c s', s = s' ++ [c] -> is_space c = false) -> rstrip s = s.
Proof.
  intros H. unfold rstrip. rewrite lstrip_fixed; [apply rev_involutive|].
  intros c s' E. apply (H c (rev s')).
  rewrite <- (rev_involutive s), E. reflexivity.
Qed.

Lemma rstrip_head s c s' :
  s = c :: s' -> is_space c = false -> exists r, rstrip s = c :: r.
Proof.
  intros -> Hc. unfold rstrip. simpl.
  destruct (lstrip (rev s' ++ [c])) as [|d l] eqn:E.
  - exfalso. destruct (lstrip_split (rev s' ++ [c])) as (a & Ea & Ha).
    rewrite E, app_nil_r in Ea. subst a.
    apply Forall_app in Ha. destruct Ha as [_ Ha].
    inversion Ha; subst. congruence.
  - destruct (lstrip_split (rev s' ++ [c])) as (a & Ea & Ha).
    rewrite E in Ea.
    assert (Er : c :: s' = rev (d :: l) ++ rev a).
    { rewrite <- rev_app_distr, <- Ea, rev_app_distr, rev_involutive.
      reflexivity. }
    destruct (rev (d :: l)) as [|x r] eqn:Ex.
    + apply (f_equal (@rev ascii)) in Ex. rewrite rev_involutive in Ex.
      discriminate.
    + simpl in Er. injection Er as -> _. now exists r.
Qed.

Lemma strip_split s :
  exists a b, s = a ++ strip s ++ b /\ all_space a /\ all_space b.
Proof.
  destruct (lstrip_split s) as (a & Ea & Ha).
  destruct (rstrip_split (lstrip s)) as (b & Eb & Hb).
  exists a, b. unfold strip. rewrite <- Eb. tauto.
Qed.

Lemma strip_trimmed s : trimmed (strip s).
Proof.
  split.
  - intros c s' E. unfold strip in E.
    destruct (lstrip s) as [|d l] eqn:El.
    + unfold rstrip in E. simpl in E. discriminate.
    + pose proof (lstrip_head _ _ _ El) as Hd.
      destruct (rstrip_head (d :: l) d l eq_refl Hd) as (r & Er).
      rewrite Er in E. now injection E as <- _.
  - intros c s' E. eapply rstrip_last. exact E.
Qed.

Lemma strip_fixed s : trimmed s -> strip s = s.
Proof.
  intros [H1 H2]. unfold strip. rewrite lstrip_fixed by assumption.
  now apply rstrip_fixed.
Qed.


Lemma strip_all_space s : all_space s -> strip s = [].
Proof.
  intros H. unfold strip. now rewrite lstrip_all_space.
Qed.

Lemma strip_nil_all_space s : strip s = [] -> all_space s.
Proof.
  intros H. destruct (strip_split s) as (a & b & E & Ha & Hb).
  rewrite H in E. rewrite E. apply Forall_app. now split.
Qed.

Lemma strip_incl s c : In c (strip s) -> In c s.
Proof.
  intros H. destruct (strip_split s) as (a & b & E & _).
  rewrite E. apply in_or_app. right. apply in_or_app. now left.
Qed.

(** ** The matcher *)

Lemma last_char_app pv t1 t2 :
  last_char pv (t1 ++ t2) = last_char (last_char pv t1) t2.
Proof. unfold last_char. apply fold_left_app. Qed.


Lemma last_char_cons pv c t : last_char pv (c :: t) = last_char (Some c) t.
Proof. reflexivity. Qed.

Lemma moves_refl st : moves st [] st.
Proof. split; reflexivity. Qed.

Lemma moves_trans st1 t1 st2 t2 st3 :
  moves st1 t1 st2 -> moves st2 t2 st3 -> moves st1 (t1 ++ t2) st3.
Proof.
  intros [E1 P1] [E2 P2]. split.
  - rewrite E1, E2. apply app_assoc.
  - rewrite P2, P1. symmetry. apply last_char_app.
Qed.

Lemma moves_length st t st' :
  moves st t st' -> length (rest st) = length t + length (rest st').
Proof. intros [E _]. rewrite E. apply length_app. Qed.

Lemma moves_consumed st t st' : moves st t st' -> consumed st st' = t.
Proof.
  intros H. unfold consumed. rewrite (moves_length _ _ _ H).
  destruct H as [E _]. rewrite E.
  replace (length t + length (rest st') - length (rest st')) with (length t)
    by lia.
  rewrite firstn_app, firstn_all, Nat.sub_diag. simpl. apply app_nil_r.
Qed.


Lemma take_sound p st st' :
  In st' (take p st) ->
  exists c, p c = true /\ moves st [c] st' /\ group1 st' = group1 st.
Proof.
  unfold take. destruct (rest st) as [|c s] eqn:E; [intros []|].
  destruct (p c) eqn:Hc; [|intros []].
  intros [<-|[]]. exists c. repeat split; simpl; auto.
Qed.

Section Greedy.

Variable step : cursor -> list cursor.
Variable P : str -> Prop.
Hypothesis step_sound :
  forall st st', In st' (step st) -> exists t, moves st t st' /\ P t.

Lemma greedy_sound n st st' :
  In st' (greedy step n st) ->
  exists ts, moves st (concat ts) st' /\ Forall P ts.
Proof.
  revert st. induction n as [|n IH]; intros st H; simpl in H.
  - destruct H as [<-|[]]. exists []. split; [apply moves_refl | constructor].
  - apply in_app_or in H. destruct H as [H|[<-|[]]].
    + apply in_flat_map in H. destruct H as (st1 & H1 & H2).
      destruct (length (rest st1) <? length (rest st)); [|destruct H2].
      destruct (step_sound _ _ H1) as (t & Ht & Pt).
      destruct (IH _ H2) as (ts & Hts & Pts).
      exists (t :: ts). split; [|now constructor].
      simpl. eapply moves_trans; eassumption.
    + exists []. split; [apply moves_refl | constructor].
Qed.

End Greedy.

(** Every way to match places the end position after a text of the
    pattern's language. *)
Lemma rmatch_sound r :
  forall st st', In st' (rmatch r st) -> exists t, moves st t st' /\ lang r t.
Proof.
  induction r as [|c|p| |p|r1 IH1 r2 IH2|r1 IH1|r1 IH1|r1 IH1];
    intros st st' H; simpl in H.
  - destruct H as [<-|[]]. exists []. split; [apply moves_refl | reflexivity].
  - apply take_sound in H. destruct H as (d & Hd & Hm & _).
    apply Ascii.eqb_eq in Hd. subst d. exists [c]. split; [assumption|reflexivity].
  - apply take_sound in H. destruct H as (d & Hd & Hm & _).
    exists [d]. split; [assumption|]. now exists d.
  - destruct (at_boundary st); [|destruct H]. destruct H as [<-|[]].
    exists []. split; [apply moves_refl | reflexivity].
  - unfold look_behind in H. destruct (prev st) as [c|]; [|destruct H].
    destruct (p c); [|destruct H]. destruct H as [<-|[]].
    exists []. split; [apply moves_refl | reflexivity].
  - apply in_flat_map in H. destruct H as (st1 & H1 & H2).
    destruct (IH1 _ _ H1) as (t1 & M1 & L1).
    destruct (IH2 _ _ H2) as (t2 & M2 & L2).
    exists (t1 ++ t2). split; [eapply moves_trans; eassumption|].
    now exists t1, t2.
  - apply in_flat_map in H. destruct H as (st1 & H1 & H2).
    destruct (IH1 _ _ H1) as (t1 & M1 & L1).
    destruct (greedy_sound (rmatch r1) (lang r1) (IH1) _ _ _ H2)
      as (ts & Mts & Lts).
    exists (t1 ++ concat ts). split; [eapply moves_trans; eassumption|].
    now exists t1, ts.
  - destruct (greedy_sound (rmatch r1) (lang r1) (IH1) _ _ _ H)
      as (ts & Mts & Lts).
    exists (concat ts). split; [assumption|]. now exists ts.
  - apply in_map_iff in H. destruct H as (st1 & <- & H1).
    destruct (IH1 _ _ H1) as (t & M & L).
    exists t. split; [exact M | exact L].
Qed.

Lemma greedy_S step n st :
  greedy step (S n) st =
  flat_map (fun st' =>
              if length (rest st') <? length (rest st)
              then greedy step n st' else [])
           (step st)
  ++ [st].
Proof. reflexivity. Qed.

Lemma take_cons p pv c s g :
  take p (Cursor pv (c :: s) g) =
  if p c then [Cursor (Some c) s g] else [].
Proof. reflexivity. Qed.

(** A greedy repetition of a character class, computed. *)
Lemma greedy_take p n pv s g :
  length s <= n -> greedy (take p) n (Cursor pv s g) = runs p pv s g.
Proof.
  revert pv s. induction n as [|n IH]; intros pv s Hn.
  - destruct s; [reflexivity | simpl in Hn; lia].
  - destruct s as [|c s]; [reflexivity|].
    rewrite greedy_S, take_cons. cbn [runs].
    destruct (p c) eqn:Hc; [|reflexivity].
    cbn [flat_map rest]. rewrite app_nil_r.
    assert (L : (length s <? length (c :: s)) = true)
      by (apply Nat.ltb_lt; simpl; lia).
    rewrite L, IH by (simpl in Hn; lia). reflexivity.
Qed.

Lemma take_drop_run p s : s = take_run p s ++ drop_run p s.
Proof.
  induction s as [|c s IH]; simpl; [reflexivity|].
  destruct (p c); simpl; congruence.
Qed.

Lemma take_run_all p s : Forall (fun c => p c = true) (take_run p s).
Proof.
  induction s as [|c s IH]; simpl; [constructor|].
  destruct (p c) eqn:E; constructor; assumption.
Qed.

Lemma drop_run_length p s : length (drop_run p s) <= length s.
Proof.
  rewrite (take_drop_run p s) at 2. rewrite length_app. lia.
Qed.

Lemma runs_head p pv s g :
  exists tl,
    runs p pv s g =
    Cursor (last_char pv (take_run p s)) (drop_run p s) g :: tl.
Proof.
  revert pv. induction s as [|c s IH]; intros pv; simpl.
  - now exists [].
  - destruct (p c).
    + destruct (IH (Some c)) as (tl & ->). simpl. eexists. reflexivity.
    + now exists [].
Qed.

Lemma rmatch_plus_cls p pv s g :
  rmatch (Plus (Cls p)) (Cursor pv s g) =
  match s with
  | c :: s' => if p c then runs p (Some c) s' g else []
  | [] => []
  end.
Proof.
  cbn [rmatch rest]. destruct s as [|c s]; [reflexivity|].
  rewrite take_cons. destruct (p c); [|reflexivity].
  cbn [flat_map]. rewrite app_nil_r. apply greedy_take. simpl. lia.
Qed.

(** ** The sentence separator *)

Lemma rmatch_cat r1 r2 st :
  rmatch (Cat r1 r2) st = flat_map (rmatch r2) (rmatch r1 st).
Proof. reflexivity. Qed.

Lemma rmatch_bnd st : rmatch Bnd st = if at_boundary st then [st] else [].
Proof. reflexivity. Qed.

Lemma rmatch_grp r st : rmatch (Grp r) st = map (capture st) (rmatch r st).
Proof. reflexivity. Qed.

Lemma rmatch_cls p st : rmatch (Cls p) st = take p st.
Proof. reflexivity. Qed.

Lemma rmatch_behind p pv s g :
  rmatch (Behind p) (Cursor pv s g) =
  match pv with
  | Some c => if p c then [Cursor pv s g] else []
  | None => []
  end.
Proof. reflexivity. Qed.

Lemma sep_rmatch pv s g :
  rmatch SENTENCE_END (Cursor pv s g) =
  match s with
  | c :: s' =>
      if terminal_at pv && is_space c then runs is_space (Some c) s' g else []
  | [] => []
  end.
Proof.
  unfold SENTENCE_END. rewrite rmatch_cat, rmatch_behind.
  destruct pv as [m|]; simpl terminal_at.
  - destruct (is_terminal m).
    + cbn [flat_map]. rewrite app_nil_r, rmatch_plus_cls.
      destruct s; reflexivity.
    + destruct s; reflexivity.
  - destruct s; reflexivity.
Qed.

Lemma cut_skip s : cut true false s = cut false false (drop_run is_space s).
Proof.
  induction s as [|c s IH]; [reflexivity|]. simpl.
  destruct (is_space c) eqn:E; [assumption|]. simpl. now rewrite E.
Qed.

Lemma cut_nonempty sk am s : cut sk am s <> [].
Proof.
  revert sk am. induction s as [|c s IH]; intros sk am; simpl; [discriminate|].
  assert (Hp : forall l, l <> [] -> push c l <> [])
    by (intros [|x l] H; [congruence | discriminate]).
  destruct (is_space c), sk, am; auto; discriminate.
Qed.

Lemma space_not_terminal c : is_space c = true -> is_terminal c = false.
Proof.
  intros H. destruct (is_terminal c) eqn:E; [|reflexivity].
  apply terminal_not_space in E. congruence.
Qed.

Lemma last_char_all_space pv t :
  all_space t -> terminal_at pv = false -> terminal_at (last_char pv t) = false.
Proof.
  intros H. revert pv. induction H as [|c t Hc _ IH]; intros pv Hpv.
  - exact Hpv.
  - simpl. apply IH. simpl. now apply space_not_terminal.
Qed.

(** The scanner at the sentence separator does what [cut] does. *)
Lemma scan_cut n :
  forall pv s, length s < n ->
    map gap (fst (scan n SENTENCE_END false pv s))
    ++ [snd (scan n SENTENCE_END false pv s)]
    = cut false (terminal_at pv) s.
Proof.
  induction n as [|n IH]; intros pv s Hn; [lia|].
  revert pv Hn. induction s as [|c s IHs]; intros pv Hn.
  - cbn [scan search]. rewrite sep_rmatch. reflexivity.
  - cbn [scan search]. rewrite sep_rmatch. cbn [cut].
    destruct (terminal_at pv && is_space c) eqn:E.
    + apply andb_prop in E. destruct E as [Et Ec]. rewrite Et, Ec.
      destruct (runs_head is_space (Some c) s None) as (tl & ->).
      cbn [after prev rest text]. unfold consumed. cbn [rest length].
      set (s2 := drop_run is_space s).
      set (pv2 := last_char (Some c) (take_run is_space s)).
      assert (L2 : length s2 <= length s) by apply drop_run_length.
      assert (Hnz : (length (firstn (S (length s) - length s2) (c :: s)) =? 0)
                    = false).
      { apply Nat.eqb_neq. rewrite length_firstn. simpl length. lia. }
      rewrite Hnz.
      specialize (IH pv2 s2 ltac:(simpl in Hn; lia)).
      destruct (scan n SENTENCE_END false pv2 s2) as [fs tl2].
      cbn [fst snd map gap app] in *. rewrite IH.
      rewrite cut_skip. fold s2. f_equal. f_equal.
      unfold pv2. apply last_char_all_space.
      * apply take_run_all.
      * simpl. now apply space_not_terminal.
    + specialize (IHs (Some c) ltac:(simpl in Hn; lia)).
      cbn [scan] in IHs.
      destruct (search SENTENCE_END false (Some c) s) as [f|].
      * cbn [option_map skip after text].
        destruct (scan n SENTENCE_END (length (text f) =? 0)
                       (prev (after f)) (rest (after f))) as [fs tl2].
        cbn [fst snd map gap app] in *.
        assert (Hc : cut false (terminal_at pv) (c :: s)
                     = push c (cut false (is_terminal c) s)).
        { cbn [cut]. destruct (is_space c) eqn:Ec; [|reflexivity].
          rewrite andb_true_r in E. rewrite E.
          now rewrite (space_not_terminal _ Ec). }
        cbn [cut] in Hc. rewrite Hc. simpl terminal_at in IHs.
        rewrite <- IHs. reflexivity.
      * cbn [option_map fst snd map app] in *.
        assert (Hc : cut false (terminal_at pv) (c :: s)
                     = push c (cut false (is_terminal c) s)).
        { cbn [cut]. destruct (is_space c) eqn:Ec; [|reflexivity].
          rewrite andb_true_r in E. rewrite E.
          now rewrite (space_not_terminal _ Ec). }
        cbn [cut] in Hc. rewrite Hc. simpl terminal_at in IHs.
        rewrite <- IHs. reflexivity.
Qed.

Lemma split_cut s : Re.split SENTENCE_END s = cut false false s.
Proof.
  unfold Re.split, scan_all. apply (scan_cut _ None). lia.
Qed.

Lemma join_push sep c l : l <> [] -> join sep (push c l) = c :: join sep l.
Proof.
  destruct l as [|x [|y l]]; [congruence| |]; reflexivity.
Qed.

Lemma join_cut sk am s :
  join [" "%char] (cut sk am s) = normalize_from sk am s.
Proof.
  revert sk am. induction s as [|c s IH]; intros sk am; [reflexivity|].
  cbn [cut normalize_from].
  destruct (is_space c); [destruct sk; [|destruct am]|].
  - apply IH.
  - pose proof (cut_nonempty true false s) as Hne.
    specialize (IH true false).
    destruct (cut true false s) as [|x l]; [congruence|].
    cbn [join app]. simpl. now rewrite <- IH.
  - rewrite join_push by apply cut_nonempty. now rewrite IH.
  - rewrite join_push by apply cut_nonempty. now rewrite IH.
Qed.

Lemma cut_no_terminal s : no_terminal s -> cut false false s = [s].
Proof.
  induction 1 as [|c s Hc _ IH]; [reflexivity|].
  cbn [cut]. rewrite Hc, IH. now destruct (is_space c).
Qed.

Lemma ends_clean_tail c s : ends_clean (c :: s) -> ends_clean s.
Proof.
  intros H d s' E. apply (H d (c :: s')). now rewrite E.
Qed.

Lemma ends_clean_cons c x :
  is_space c = false -> ends_clean x -> ends_clean (c :: x).
Proof.
  intros Hc Hx d s' E. destruct s' as [|e s'].
  - injection E as -> _. exact Hc.
  - injection E as _ E. eapply Hx. exact E.
Qed.

(** On a text that does not end in whitespace, every piece but the one
    being read is a trimmed, non-empty sentence, and the piece being read
    does not end in whitespace. *)
Lemma cut_pieces s :
  ends_clean s ->
  (forall am, exists x l,
      cut false am s = x :: l /\ Forall sentence_like l /\ ends_clean x /\
      (forall c s', s = c :: s' -> am && is_space c = false ->
                    exists x', x = c :: x')) /\
  (s <> [] -> Forall sentence_like (cut true false s)).
Proof.
  induction s as [|c s IH]; intros Hs.
  - split; [|congruence]. intros am. exists [], []. repeat split.
    + constructor.
    + intros d s' E. destruct s'; discriminate.
    + discriminate.
  - destruct (IH (ends_clean_tail _ _ Hs)) as [IH1 IH2].
    assert (Hne : is_space c = true -> s <> []).
    { intros Hc ->. specialize (Hs c [] eq_refl). congruence. }
    split.
    + intros am. cbn [cut]. destruct (is_space c) eqn:Hc.
      * destruct am.
        -- exists [], (cut true false s). repeat split.
           ++ apply IH2. now apply Hne.
           ++ intros d s' E. destruct s'; discriminate.
           ++ intros d s' E. injection E as <- _. simpl. congruence.
        -- destruct (IH1 false) as (x & l & E & Hl & Hx & Hh).
           rewrite E. exists (c :: x), l. repeat split; try assumption.
           ++ destruct s as [|d s]; [now specialize (Hne eq_refl)|].
              destruct (Hh d s eq_refl eq_refl) as (x' & ->).
              intros e s' Ee. destruct s' as [|f s']; [discriminate|].
              injection Ee as _ Ee. eapply Hx. exact Ee.
           ++ intros d s' Ed _. injection Ed as <- _. now exists x.
      * destruct (IH1 (is_terminal c)) as (x & l & E & Hl & Hx & Hh).
        rewrite E. exists (c :: x), l. repeat split; try assumption.
        -- now apply ends_clean_cons.
        -- intros d s' Ed _. injection Ed as <- _. now exists x.
    + intros _. cbn [cut]. destruct (is_space c) eqn:Hc.
      * apply IH2. now apply Hne.
      * destruct (IH1 (is_terminal c)) as (x & l & E & Hl & Hx & Hh).
        rewrite E. cbn [push]. constructor; [|assumption].
        split; [|discriminate]. split.
        -- intros d s' Ed. injection Ed as <- _. exact Hc.
        -- now apply ends_clean_cons.
Qed.

Lemma cut_trimmed s :
  trimmed s -> s <> [] -> Forall sentence_like (cut false false s).
Proof.
  intros [Hh Ht] Hne. destruct s as [|c s]; [congruence|].
  destruct (cut_pieces (c :: s) Ht) as [H _].
  destruct (H false) as (x & l & E & Hl & Hx & Hx').
  rewrite E. constructor; [|assumption].
  destruct (Hx' c s eq_refl eq_refl) as (x' & ->).
  split; [|discriminate]. split; [|exact Hx].
  intros d s' Ed. injection Ed as <- _. now apply (Hh c s).
Qed.

Lemma sentences_keep l :
  Forall sentence_like l ->
  map strip (filter (fun sentence => nonempty (strip sentence)) l) = l.
Proof.
  induction 1 as [|x l [Hx Hne] _ IH]; [reflexivity|].
  cbn [filter]. rewrite (strip_fixed _ Hx).
  destruct x as [|c x]; [congruence|]. cbn [nonempty map].
  now rewrite IH, (strip_fixed _ Hx).
Qed.

Lemma sentence_split_cut text :
  strip text <> [] -> sentence_split text = cut false false (strip text).
Proof.
  intros H. unfold sentence_split. rewrite split_cut.
  apply sentences_keep, cut_trimmed; [apply strip_trimmed | assumption].
Qed.

Lemma sentence_split_blank text :
  all_space text -> sentence_split text = [].
Proof.
  intros H. unfold sentence_split. rewrite split_cut.
  now rewrite (strip_all_space _ H).
Qed.

(** ** The sentence splitter *)

(** C4. Joining the sentences of [sentence_split] with one space gives the
    trimmed input in which every run of whitespace that follows a terminal
    mark (the split boundaries) is normalised to one space. *)
Theorem sentence_split_roundtrip text :
  join [" "%char] (sentence_split text) = normalize_boundaries (strip text).
Proof.
  destruct (strip text) as [|c s] eqn:E.
  - unfold sentence_split. rewrite split_cut, E. reflexivity.
  - rewrite sentence_split_cut by (rewrite E; discriminate).
    rewrite E. apply join_cut.
Qed.

Lemma roundtrip_example :
  sentence_split (chars "  One.   Two!  Three  four? ")
  = [chars "One."; chars "Two!"; chars "Three  four?"] /\
  join [" "%char] (sentence_split (chars "  One.   Two!  Three  four? "))
  = chars "One. Two! Three  four?".
Proof. split; vm_compute; reflexivity. Qed.

(** C5. Whitespace-only (or empty) text yields no sentence; text that is
    not whitespace-only and has no terminal mark yields exactly the trimmed
    text; every sentence yielded is non-empty and has no whitespace at
    either end. *)
Theorem sentence_split_edges text :
  (all_space text -> sentence_split text = []) /\
  (~ all_space text -> no_terminal text ->
   sentence_split text = [strip text]) /\
  (forall s, In s (sentence_split text) -> s <> [] /\ trimmed s).
Proof.
  split; [apply sentence_split_blank | split].
  - intros Hns Hnt.
    assert (Hne : strip text <> [])
      by (intros E; apply Hns, strip_nil_all_space, E).
    rewrite sentence_split_cut by assumption.
    apply cut_no_terminal. apply Forall_forall. intros c Hc.
    apply strip_incl in Hc. revert c Hc. now apply Forall_forall.
  - intros s Hs. unfold sentence_split in Hs.
    apply in_map_iff in Hs. destruct Hs as (x & <- & Hx).
    apply filter_In in Hx. destruct Hx as [_ Hx].
    split; [|apply strip_trimmed].
    intros E. rewrite E in Hx. discriminate.
Qed.

Lemma sentence_split_edges_witness :
  sentence_split (chars "   ") = [] /\
  sentence_split (chars "  no mark here ") = [chars "no mark here"] /\
  (chars "Bye!" <> [] /\ trimmed (chars "Bye!")).
Proof.
  split; [|split].
  - apply (sentence_split_edges (chars "   ")). repeat constructor.
  - apply (sentence_split_edges (chars "  no mark here ")).
    + intros H. inversion H as [|c s Hc Hs]; subst.
      inversion Hs as [|c' s' Hc' Hs']; subst.
      inversion Hs' as [|c2 s2 Hc2 Hs2]; subst. discriminate Hc2.
    + repeat constructor.
  - apply (proj2 (proj2 (sentence_split_edges (chars "Hi there. Bye!")))
             (chars "Bye!")).
    vm_compute. right. left. reflexivity.
Defined.

(** ** The scan of [re.search] *)

(** What a successful search returns: the first way to match at the
    leftmost position that has one. *)
Lemma search_spec r pv s f :
  search r false pv s = Some f ->
  exists tl,
    rmatch r (Cursor (last_char pv (gap f)) (text f ++ rest (after f)) None)
    = after f :: tl /\
    grp1 f = group1 (after f) /\
    s = gap f ++ text f ++ rest (after f) /\
    prev (after f) = last_char (last_char pv (gap f)) (text f) /\
    (forall g1 g2, gap f = g1 ++ g2 -> g2 <> [] ->
       rmatch r (Cursor (last_char pv g1) (g2 ++ text f ++ rest (after f)) None)
       = []).
Proof.
  revert pv f. induction s as [|c s IH]; intros pv f H; cbn [search] in H.
  - destruct (rmatch r (Cursor pv [] None)) as [|st' tl] eqn:E; [discriminate|].
    injection H as <-. cbn [gap text after grp1].
    assert (Hin : In st' (rmatch r (Cursor pv [] None)))
      by (rewrite E; now left).
    destruct (rmatch_sound _ _ _ Hin) as (t & M & _).
    rewrite (moves_consumed _ _ _ M). destruct M as [M1 M2].
    cbn [rest prev] in *. rewrite <- M1. exists tl. repeat split; auto.
    intros g1 g2 Eg Hg. destruct g1; destruct g2; try discriminate. congruence.
  - destruct (rmatch r (Cursor pv (c :: s) None)) as [|st' tl] eqn:E.
    + destruct (search r false (Some c) s) as [f'|] eqn:Ef; [|discriminate].
      injection H as <-. cbn [skip gap text after grp1 option_map].
      destruct (IH _ _ Ef) as (tl & Hm & Hg & Hs & Hp & Hl).
      exists tl. rewrite last_char_cons. repeat split; auto.
      * simpl. now rewrite <- Hs.
      * intros g1 g2 Eg Hg2. destruct g1 as [|d g1].
        -- simpl in Eg. subst g2. simpl. rewrite <- Hs. exact E.
        -- injection Eg as <- Eg. rewrite last_char_cons. now apply Hl.
    + injection H as <-. cbn [gap text after grp1].
      assert (Hin : In st' (rmatch r (Cursor pv (c :: s) None)))
        by (rewrite E; now left).
      destruct (rmatch_sound _ _ _ Hin) as (t & M & _).
      rewrite (moves_consumed _ _ _ M). destruct M as [M1 M2].
      cbn [rest prev] in *. rewrite <- M1. exists tl. repeat split; auto.
      intros g1 g2 Eg Hg. destruct g1; destruct g2; try discriminate.
      congruence.
Qed.

Lemma search_none r pv s :
  search r false pv s = None ->
  forall g1 g2, s = g1 ++ g2 ->
    rmatch r (Cursor (last_char pv g1) g2 None) = [].
Proof.
  revert pv. induction s as [|c s IH]; intros pv H g1 g2 E; cbn [search] in H.
  - destruct g1; [|discriminate]. simpl in E. subst g2. simpl.
    destruct (rmatch r (Cursor pv [] None)); [reflexivity | discriminate].
  - destruct (rmatch r (Cursor pv (c :: s) None)) eqn:Er; [|discriminate].
    destruct g1 as [|d g1].
    + simpl in E. subst g2. exact Er.
    + injection E as <- E. rewrite last_char_cons. apply IH; [|assumption].
      destruct (search r false (Some c) s); [discriminate | reflexivity].
Qed.

Lemma matches_iff r s :
  Re.matches r s = true <->
  exists g1 g2,
    s = g1 ++ g2 /\ rmatch r (Cursor (last_char None g1) g2 None) <> [].
Proof.
  unfold Re.matches. destruct (search r false None s) as [f|] eqn:E.
  - split; [intros _ | reflexivity].
    destruct (search_spec _ _ _ _ E) as (tl & Hm & _ & Hs & _).
    exists (gap f), (text f ++ rest (after f)). split; [assumption|].
    rewrite Hm. discriminate.
  - split; [discriminate|]. intros (g1 & g2 & Hs & Hm).
    exfalso. apply Hm. eapply search_none; eassumption.
Qed.

(** ** The keyword matcher *)

Lemma after_prefix_iff w s s' : after_prefix w s = Some s' <-> s = w ++ s'.
Proof.
  revert s. induction w as [|c w IH]; intros s; simpl.
  - split; congruence.
  - destruct s as [|d s]; [split; discriminate|].
    destruct (Ascii.eqb c d) eqn:E.
    + apply Ascii.eqb_eq in E. subst d. rewrite IH. split; congruence.
    + apply Ascii.eqb_neq in E. split; [discriminate | congruence].
Qed.

Lemma escape_rmatch w :
  forall pv s g,
    rmatch (escape w) (Cursor pv s g) =
    match after_prefix w s with
    | Some s' => [Cursor (last_char pv w) s' g]
    | None => []
    end.
Proof.
  induction w as [|c w IH]; intros pv s g; [reflexivity|].
  cbn [escape fold_right]. rewrite rmatch_cat. cbn [rmatch].
  destruct s as [|d s]; [reflexivity|].
  rewrite take_cons. cbn [after_prefix].
  destruct (Ascii.eqb c d) eqn:E; [|reflexivity].
  apply Ascii.eqb_eq in E. subst d.
  cbn [flat_map]. rewrite app_nil_r. apply IH.
Qed.

Lemma whole_word_rmatch w pv s g :
  rmatch (whole_word w) (Cursor pv s g) <> [] <->
  exists s',
    s = w ++ s' /\
    xorb (word_at pv) (word_at (hd_error s)) = true /\
    xorb (word_at (last_char pv w)) (word_at (hd_error s')) = true.
Proof.
  unfold whole_word. rewrite rmatch_cat, rmatch_bnd.
  unfold at_boundary. cbn [prev rest].
  destruct (xorb (word_at pv) (word_at (hd_error s))) eqn:B1.
  - cbn [flat_map]. rewrite app_nil_r, rmatch_cat, escape_rmatch.
    destruct (after_prefix w s) as [s'|] eqn:E.
    + apply after_prefix_iff in E. cbn [flat_map].
      rewrite app_nil_r, rmatch_bnd.
      unfold at_boundary. cbn [prev rest].
      destruct (xorb (word_at (last_char pv w)) (word_at (hd_error s')))
        eqn:B2.
      * split; [intros _ | discriminate]. now exists s'.
      * split; [congruence|]. intros (s2 & E2 & _ & B).
        rewrite E in E2. apply app_inv_head in E2. subst s2. congruence.
    + split; [cbn; congruence|]. intros (s2 & E2 & _).
      apply after_prefix_iff in E2. congruence.
  - split; [cbn; congruence|]. intros (_ & _ & B & _). discriminate.
Qed.

(** [re.search] with the whole-word pattern succeeds exactly when the word
    stands in the subject between two word boundaries. *)
Lemma whole_word_matches w s :
  Re.matches (whole_word w) s = true <->
  exists before behind,
    s = before ++ w ++ behind /\
    boundary before (w ++ behind) /\ boundary (before ++ w) behind.
Proof.
  rewrite matches_iff. split.
  - intros (g1 & g2 & E & H). apply whole_word_rmatch in H.
    destruct H as (s' & -> & B1 & B2). exists g1, s'.
    unfold boundary. rewrite last_char_app. auto.
  - intros (before & behind & E & B1 & B2).
    exists before, (w ++ behind). split; [assumption|].
    apply whole_word_rmatch. exists behind.
    unfold boundary in *. rewrite last_char_app in B2. auto.
Qed.

Lemma word_at_last_lower x :
  forall pv pv', word_at pv' = word_at pv ->
    word_at (last_char pv' (lower x)) = word_at (last_char pv x).
Proof.
  induction x as [|c x IH]; intros pv pv' H; [exact H|].
  simpl. apply IH. simpl. apply lower_char_word.
Qed.

Lemma word_at_hd_lower x :
  word_at (hd_error (lower x)) = word_at (hd_error x).
Proof. destruct x; [reflexivity | apply lower_char_word]. Qed.

Lemma boundary_lower a b : boundary (lower a) (lower b) <-> boundary a b.
Proof.
  unfold boundary.
  now rewrite (word_at_last_lower a None None eq_refl), word_at_hd_lower.
Qed.

Lemma lower_app a b : lower (a ++ b) = lower a ++ lower b.
Proof. apply map_app. Qed.

Lemma detect_one w sentence :
  is_lowercase w ->
  Re.matches (whole_word w) (lower sentence) = true <->
  occurs_whole w sentence.
Proof.
  intros Hw. rewrite whole_word_matches. unfold occurs_whole. split.
  - intros (b1 & b2 & E & B1 & B2).
    unfold lower in E. apply map_eq_app in E.
    destruct E as (before & rest0 & -> & <- & E).
    apply map_eq_app in E. destruct E as (u & behind & -> & <- & <-).
    exists before, u, behind. fold (lower u) in *. fold (lower behind) in *.
    fold (lower before) in *. repeat split.
    + rewrite Hw. reflexivity.
    + rewrite <- lower_app in B1. exact (proj1 (boundary_lower _ _) B1).
    + rewrite <- lower_app in B2. exact (proj1 (boundary_lower _ _) B2).
  - intros (before & u & behind & -> & Eu & B1 & B2).
    rewrite Hw in Eu. exists (lower before), (lower behind).
    rewrite <- Eu, <- !lower_app. split; [reflexivity | split].
    + exact (proj2 (boundary_lower _ _) B1).
    + exact (proj2 (boundary_lower _ _) B2).
Qed.

(** C2. For a vocabulary of lowercase words [detect_keywords] is true
    exactly when some word of the vocabulary occurs in the sentence as a
    whole word, letter case aside and with a word boundary at each end; with
    "game" in the vocabulary "gamer" does not match and "game night"
    does. *)
Theorem detect_keywords_whole_word :
  (forall sentence keywords,
     Forall is_lowercase keywords ->
     (detect_keywords sentence keywords = true <->
      exists word, In word keywords /\ occurs_whole word sentence)) /\
  detect_keywords (chars "He is a gamer") EVENT_KEYWORDS = false /\
  detect_keywords (chars "gamer") [chars "game"] = false /\
  detect_keywords (chars "We had a game night") EVENT_KEYWORDS = true /\
  detect_keywords (chars "Game night") [chars "game"] = true.
Proof.
  split; [|repeat split; vm_compute; reflexivity].
  intros sentence keywords Hk. unfold detect_keywords.
  rewrite existsb_exists. split.
  - intros (w & Hin & Hm). exists w. split; [assumption|].
    apply detect_one; [|assumption].
    exact (proj1 (Forall_forall _ _) Hk w Hin).
  - intros (w & Hin & Ho). exists w. split; [assumption|].
    apply detect_one; [|assumption].
    exact (proj1 (Forall_forall _ _) Hk w Hin).
Qed.

Lemma detect_keywords_whole_word_witness :
  detect_keywords (chars "Our GAME night!") EVENT_KEYWORDS = true.
Proof.
  apply (proj1 detect_keywords_whole_word
               (chars "Our GAME night!") EVENT_KEYWORDS).
  - repeat constructor.
  - exists (chars "game"). split; [vm_compute; tauto|].
    exists (chars "Our "), (chars "GAME"), (chars " night!").
    repeat split.
Defined.

(** ** Entry construction *)

(** C3. A sentence that appears in feelings, events or health of an entry
    does not appear in its situations. *)
Theorem situations_exclusive text ts now s :
  In s (feelings (from_text text ts now)) \/
  In s (events (from_text text ts now)) \/
  In s (health (from_text text ts now)) ->
  ~ In s (situations (from_text text ts now)).
Proof.
  cbn [from_text feelings events health situations].
  intros H Hs. apply filter_In in Hs. destruct Hs as [_ Hs].
  apply andb_prop in Hs. destruct Hs as [Hs _].
  apply negb_true_iff in Hs.
  assert (Hin : In s (py_set
    (filter (fun s0 => detect_keywords s0 FEELING_KEYWORDS)
            (sentence_split text)
     ++ filter (fun s0 => detect_keywords s0 EVENT_KEYWORDS)
               (sentence_split text)
     ++ filter (fun s0 => detect_keywords s0 HEALTH_KEYWORDS)
               (sentence_split text)))).
  { apply py_set_In. rewrite !in_app_iff. exact H. }
  apply mem_In in Hin. congruence.
Qed.

Lemma situations_exclusive_witness :
  detect_keywords (chars "I was happy at work.") SITUATION_KEYWORDS = true /\
  ~ In (chars "I was happy at work.")
       (situations
          (from_text (chars "I was happy at work. It was sunny at home.")
                     (Some T0) T0)).
Proof.
  split; [vm_compute; reflexivity|].
  apply (situations_exclusive
           (chars "I was happy at work. It was sunny at home.")
           (Some T0) T0 (chars "I was happy at work.")).
  left. vm_compute. left. reflexivity.
Defined.

(** C9. The raw entry of an entry is the input text with its leading and
    trailing whitespace stripped (not the text as given), while the names
    are taken from the text as given. *)
Theorem raw_entry_stripped text ts now :
  raw_entry (from_text text ts now) = strip text /\
  trimmed (raw_entry (from_text text ts now)) /\
  (exists a b,
     text = a ++ raw_entry (from_text text ts now) ++ b /\
     all_space a /\ all_space b) /\
  people (from_text text ts now) = extract_people text.
Proof.
  cbn [from_text raw_entry people]. repeat split.
  - apply (strip_trimmed text).
  - apply (strip_trimmed text).
  - apply strip_split.
Qed.

Lemma raw_entry_not_verbatim :
  raw_entry (from_text (chars "  Hello there. ") (Some T0) T0)
  = chars "Hello there." /\
  raw_entry (from_text (chars "  Hello there. ") (Some T0) T0)
  <> chars "  Hello there. ".
Proof. split; [reflexivity | discriminate]. Qed.

(** C1, as the program has it. For the text of scenario 2 and any timestamp
    the first sentence is the one event and the one feeling, and health,
    situations and people are empty: "rained" is not the whole word "rain",
    so the second sentence is no situation. *)
Theorem scenario2_classified ts now :
  events (from_text scenario2 ts now)
  = [chars "Today was my birthday party and I felt so grateful."] /\
  feelings (from_text scenario2 ts now)
  = [chars "Today was my birthday party and I felt so grateful."] /\
  health (from_text scenario2 ts now) = [] /\
  situations (from_text scenario2 ts now) = [] /\
  people (from_text scenario2 ts now) = [].
Proof. repeat split; vm_compute; reflexivity. Qed.

(** C1, as stated, fails: the situations of scenario 2 are not the second
    sentence. *)
Lemma scenario2_as_stated_fails :
  ~ (events (from_text scenario2 (Some T0) T0)
     = [chars "Today was my birthday party and I felt so grateful."] /\
     feelings (from_text scenario2 (Some T0) T0)
     = [chars "Today was my birthday party and I felt so grateful."] /\
     health (from_text scenario2 (Some T0) T0) = [] /\
     situations (from_text scenario2 (Some T0) T0)
     = [chars "It rained all day though."] /\
     people (from_text scenario2 (Some T0) T0) = []).
Proof.
  intros (_ & _ & _ & H & _). vm_compute in H. discriminate.
Qed.

Lemma rained_is_not_rain :
  sentence_split scenario2
  = [chars "Today was my birthday party and I felt so grateful.";
     chars "It rained all day though."] /\
  detect_keywords (chars "It rained all day though.") SITUATION_KEYWORDS
  = false /\
  detect_keywords (chars "It will rain all day.") SITUATION_KEYWORDS = true.
Proof. repeat split; vm_compute; reflexivity. Qed.

(** ** The scanner in general *)

(** Whatever the flag, a match that [search] returns is one of the ways
    to match at its position, and after an empty match the scanner does
    move on. *)
Lemma search_in r :
  forall s ma pv f,
    search r ma pv s = Some f ->
    In (after f)
       (rmatch r (Cursor (last_char pv (gap f)) (text f ++ rest (after f)) None))
    /\ grp1 f = group1 (after f)
    /\ s = gap f ++ text f ++ rest (after f)
    /\ (ma = true -> gap f = [] -> text f <> []).
Proof.
  induction s as [|c s IH]; intros ma pv f H; cbn [search] in H.
  - destruct (if ma then filter (shorter []) (rmatch r (Cursor pv [] None))
              else rmatch r (Cursor pv [] None)) as [|st' tl] eqn:E;
      [discriminate|].
    injection H as <-. cbn [gap text after grp1].
    assert (Hin : In st' (rmatch r (Cursor pv [] None))).
    { destruct ma.
      - assert (Hf : In st' (filter (shorter []) (rmatch r (Cursor pv [] None))))
          by (rewrite E; now left).
        now apply filter_In in Hf.
      - rewrite E. now left. }
    destruct (rmatch_sound _ _ _ Hin) as (t & M & _).
    rewrite (moves_consumed _ _ _ M). destruct M as [M1 M2].
    cbn [rest prev] in *. rewrite <- M1. repeat split; auto.
    intros -> _ Et. subst t.
    assert (Hf : In st' (filter (shorter []) (rmatch r (Cursor pv [] None))))
      by (rewrite E; now left).
    apply filter_In in Hf. destruct Hf as [_ Hf].
    unfold shorter in Hf. apply Nat.ltb_lt in Hf. simpl in Hf. lia.
  - destruct (if ma
              then filter (shorter (c :: s)) (rmatch r (Cursor pv (c :: s) None))
              else rmatch r (Cursor pv (c :: s) None)) as [|st' tl] eqn:E.
    + destruct (search r false (Some c) s) as [f'|] eqn:Ef; [|discriminate].
      injection H as <-. cbn [skip gap text after grp1 option_map].
      destruct (IH _ _ _ Ef) as (Hm & Hg & Hs & _).
      rewrite last_char_cons. repeat split; auto.
      * simpl. now rewrite <- Hs.
      * discriminate.
    + injection H as <-. cbn [gap text after grp1].
      assert (Hin : In st' (rmatch r (Cursor pv (c :: s) None))).
      { destruct ma.
        - assert (Hf : In st' (filter (shorter (c :: s))
                                      (rmatch r (Cursor pv (c :: s) None))))
            by (rewrite E; now left).
          now apply filter_In in Hf.
        - rewrite E. now left. }
      destruct (rmatch_sound _ _ _ Hin) as (t & M & _).
      rewrite (moves_consumed _ _ _ M). pose proof M as [M1 M2].
      cbn [rest prev] in *. rewrite <- M1. repeat split; auto.
      intros -> _ Et. subst t.
      assert (Hf : In st' (filter (shorter (c :: s))
                                  (rmatch r (Cursor pv (c :: s) None))))
        by (rewrite E; now left).
      apply filter_In in Hf. destruct Hf as [_ Hf].
      unfold shorter in Hf. apply Nat.ltb_lt in Hf.
      simpl in M1. rewrite M1 in Hf. lia.
Qed.

(** The fuel of [scan_all] is never used up: any larger amount gives the
    same matches. *)
Lemma scan_fuel r :
  forall n m (ma : bool) pv s,
    2 * length s + (if ma then 0 else 1) < n ->
    2 * length s + (if ma then 0 else 1) < m ->
    scan n r ma pv s = scan m r ma pv s.
Proof.
  induction n as [|n IH]; intros m ma pv s Hn Hm; [lia|].
  destruct m as [|m]; [lia|]. cbn [scan].
  destruct (search r ma pv s) as [f|] eqn:E; [|reflexivity].
  destruct (search_in _ _ _ _ _ E) as (_ & _ & Hs & Hadv).
  assert (L : length s
              = length (gap f) + length (text f) + length (rest (after f))).
  { rewrite Hs at 1. rewrite !length_app. lia. }
  assert (H : 2 * length (rest (after f))
              + (if length (text f) =? 0 then 0 else 1)
              < 2 * length s + (if ma then 0 else 1)).
  { destruct (length (text f) =? 0) eqn:Et.
    - apply Nat.eqb_eq in Et. destruct ma; [|lia].
      destruct (gap f) as [|d g] eqn:Eg; [|simpl in L; lia].
      specialize (Hadv eq_refl eq_refl).
      destruct (text f); [congruence | discriminate].
    - apply Nat.eqb_neq in Et. destruct ma; lia. }
  rewrite (IH m) by lia. reflexivity.
Qed.

Lemma scan_in r :
  forall n ma pv s f,
    In f (fst (scan n r ma pv s)) ->
    exists pv',
      In (after f) (rmatch r (Cursor pv' (text f ++ rest (after f)) None))
      /\ grp1 f = group1 (after f).
Proof.
  induction n as [|n IH]; intros ma pv s f H; [destruct H|].
  cbn [scan] in H. destruct (search r ma pv s) as [f0|] eqn:E; [|destruct H].
  destruct (scan n r (length (text f0) =? 0) (prev (after f0))
                 (rest (after f0))) as [fs tl] eqn:Es.
  cbn [fst] in H. destruct H as [<-|H].
  - destruct (search_in _ _ _ _ _ E) as (Hm & Hg & _).
    eexists. split; eassumption.
  - eapply IH. rewrite Es. exact H.
Qed.

(** ** The name pattern *)

Lemma lang_lower_plus t :
  lang (Plus (Cls is_lower)) t ->
  t <> [] /\ Forall (fun c => is_lower c = true) t.
Proof.
  intros (t1 & ts & -> & (c & -> & Hc) & Hts). split; [discriminate|].
  constructor; [assumption|].
  induction Hts as [|x ts (d & -> & Hd) _ IH]; [constructor|].
  simpl. now constructor.
Qed.

Lemma lang_title_word w : lang title_word w -> titlecase w.
Proof.
  intros (a & b & -> & (c & -> & Hc) & Hb).
  apply lang_lower_plus in Hb. destruct Hb as [Hne Hb].
  exists c, b. auto.
Qed.

Lemma lang_run_tail ts :
  Forall (lang (Cat (Cls is_space) title_word)) ts -> run_tail (concat ts).
Proof.
  induction 1 as [|x ts (a & w & -> & (c & -> & Hc) & Hw) _ IH].
  - constructor.
  - simpl. constructor; [assumption | now apply lang_title_word | assumption].
Qed.

(** Every way to match [NAME_PATTERN] covers Titlecase words one whitespace
    character apart, between two word boundaries, and group 1 is the whole
    match. *)
Lemma name_sound st st' :
  In st' (rmatch NAME_PATTERN st) ->
  exists t,
    moves st t st' /\ name_run t /\ group1 st' = Some t /\
    at_boundary st = true /\ at_boundary st' = true.
Proof.
  unfold NAME_PATTERN. rewrite rmatch_cat, rmatch_bnd.
  destruct (at_boundary st) eqn:B; [|intros []].
  cbn [flat_map]. rewrite app_nil_r, rmatch_cat. intros H.
  apply in_flat_map in H. destruct H as (y & Hy & H).
  rewrite rmatch_bnd in H. destruct (at_boundary y) eqn:By; [|destruct H].
  destruct H as [<-|[]].
  rewrite rmatch_grp in Hy.
  apply in_map_iff in Hy. destruct Hy as (z & <- & Hz).
  destruct (rmatch_sound _ _ _ Hz) as (t & M & (t1 & t2 & -> & L1 & L2)).
  destruct L2 as (ts & -> & Hts).
  exists (t1 ++ concat ts). repeat split.
  - apply M.
  - apply M.
  - exists t1, (concat ts).
    split; [reflexivity|]. split; [now apply lang_title_word|].
    now apply lang_run_tail.
  - cbn [capture group1]. now rewrite (moves_consumed _ _ _ M).
  - exact By.
Qed.

Lemma titlecase_length w : titlecase w -> 2 <= length w.
Proof.
  intros (u & ls & -> & _ & Hne & _). destruct ls; [congruence|]. simpl. lia.
Qed.

Lemma titlecase_no_space w :
  titlecase w -> Forall (fun c => is_space c = false) w.
Proof.
  intros (u & ls & -> & Hu & _ & Hls). constructor.
  - now apply upper_not_space.
  - eapply Forall_impl; [|exact Hls]. intros c. apply lower_not_space.
Qed.

Lemma name_run_upper t :
  name_run t -> exists c, In c t /\ is_upper c = true.
Proof.
  intros (w & r & -> & (u & ls & -> & Hu & _) & _).
  exists u. split; [now left | assumption].
Qed.

(** Every match the scanner reports for [NAME_PATTERN] is a run of
    Titlecase words, and its group 1 is the match. *)
Lemma name_group1 n ma pv s m :
  In m (fst (scan n NAME_PATTERN ma pv s)) ->
  grp1 m = Some (text m) /\ name_run (text m).
Proof.
  intros H. destruct (scan_in _ _ _ _ _ _ H) as (pv' & Hin & Hg).
  destruct (name_sound _ _ Hin) as (t & [M _] & Hr & Hg1 & _).
  cbn [rest] in M. apply app_inv_tail in M. subst t.
  rewrite Hg, Hg1. auto.
Qed.

Lemma finditer_no_upper text :
  Forall (fun c => is_upper c = false) text ->
  Re.finditer NAME_PATTERN text = [].
Proof.
  intros H. unfold Re.finditer, scan_all.
  replace (2 * length text + 2) with (S (2 * length text + 1)) by lia.
  cbn [scan]. destruct (search NAME_PATTERN false None text) as [f|] eqn:E;
    [exfalso | reflexivity].
  destruct (search_in _ _ _ _ _ E) as (Hin & _ & Hs & _).
  destruct (name_sound _ _ Hin) as (t & [M _] & Hr & _).
  cbn [rest] in M. apply app_inv_tail in M. subst t.
  destruct (name_run_upper _ Hr) as (c & Hc & Hu).
  assert (Hct : In c text).
  { rewrite Hs. apply in_or_app. right. apply in_or_app. now left. }
  pose proof (proj1 (Forall_forall _ _) H c Hct) as Hf. simpl in Hf.
  congruence.
Qed.

(** ** [sorted] and the order of strings *)

Lemma code_inj a b : code a = code b -> a = b.
Proof.
  unfold code. intros H. rewrite <- (ascii_N_embedding a).
  rewrite <- (ascii_N_embedding b). now rewrite H.
Qed.

Lemma str_ltb_irrefl a : str_ltb a a = false.
Proof.
  induction a as [|x a IH]; [reflexivity|]. simpl.
  now rewrite N.ltb_irrefl.
Qed.

Lemma str_ltb_trans a :
  forall b c, str_ltb a b = true -> str_ltb b c = true -> str_ltb a c = true.
Proof.
  induction a as [|x a IH]; intros [|y b] [|z c] H1 H2; simpl in *;
    try discriminate; try reflexivity.
  destruct (code x <? code y)%N eqn:Exy.
  - apply N.ltb_lt in Exy.
    destruct (code y <? code z)%N eqn:Eyz.
    + apply N.ltb_lt in Eyz.
      assert (Hxz : (code x <? code z)%N = true) by (apply N.ltb_lt; lia).
      now rewrite Hxz.
    + destruct (code z <? code y)%N eqn:Ezy; [discriminate|].
      apply N.ltb_ge in Eyz, Ezy.
      assert (Hxz : (code x <? code z)%N = true) by (apply N.ltb_lt; lia).
      now rewrite Hxz.
  - destruct (code y <? code x)%N eqn:Eyx; [discriminate|].
    apply N.ltb_ge in Exy, Eyx.
    assert (Exy' : code x = code y) by lia. rewrite Exy'.
    destruct (code y <? code z)%N; [reflexivity|].
    destruct (code z <? code y)%N; [discriminate|].
    eapply IH; eassumption.
Qed.

Lemma str_ltb_total a :
  forall b, str_ltb a b = false -> str_ltb b a = false -> a = b.
Proof.
  induction a as [|x a IH]; intros [|y b] H1 H2; simpl in *;
    try discriminate; try reflexivity.
  destruct (code x <? code y)%N eqn:Exy; [discriminate|].
  destruct (code y <? code x)%N eqn:Eyx; [discriminate|].
  apply N.ltb_ge in Exy, Eyx.
  assert (E : code x = code y) by lia. apply code_inj in E. subst y.
  f_equal. now apply IH.
Qed.

Lemma insert_sorted_perm x l : Permutation (x :: l) (insert_sorted x l).
Proof.
  induction l as [|y l IH]; simpl; [reflexivity|].
  destruct (str_leb x y); [reflexivity|].
  rewrite perm_swap. now constructor.
Qed.

Lemma sorted_perm l : Permutation l (sorted l).
Proof.
  induction l as [|x l IH]; simpl; [constructor|].
  rewrite <- insert_sorted_perm. now constructor.
Qed.

Lemma sorted_In x l : In x (sorted l) <-> In x l.
Proof.
  split; apply Permutation_in;
    [symmetry; apply sorted_perm | apply sorted_perm].
Qed.

Lemma str_le_trans a b c : str_le a b -> str_le b c -> str_le a c.
Proof.
  unfold str_le, str_leb. intros H1 H2.
  apply negb_true_iff in H1, H2. apply negb_true_iff.
  destruct (str_ltb c a) eqn:Hca; [|reflexivity].
  destruct (str_ltb a b) eqn:Hab.
  - rewrite (str_ltb_trans _ _ _ Hca Hab) in H2. discriminate.
  - rewrite (str_ltb_total _ _ Hab H1) in Hca. congruence.
Qed.

Lemma insert_sorted_sorted x l :
  StronglySorted str_le l -> StronglySorted str_le (insert_sorted x l).
Proof.
  induction 1 as [|y l Hl IH Hy]; simpl.
  - repeat constructor.
  - destruct (str_leb x y) eqn:E.
    + constructor; [now constructor|]. constructor; [exact E|].
      eapply Forall_impl; [|exact Hy]. intros z. now apply str_le_trans.
    + constructor; [assumption|].
      apply Forall_forall. intros z Hz.
      apply (Permutation_in _ (Permutation_sym (insert_sorted_perm x l))) in Hz.
      destruct Hz as [<-|Hz].
      * unfold str_le, str_leb in *. apply negb_false_iff in E.
        apply negb_true_iff. destruct (str_ltb x y) eqn:Hxy; [|reflexivity].
        pose proof (str_ltb_trans _ _ _ Hxy E) as Hxx.
        rewrite str_ltb_irrefl in Hxx. discriminate.
      * exact (proj1 (Forall_forall _ _) Hy z Hz).
Qed.

Lemma sorted_sorted l : StronglySorted str_le (sorted l).
Proof.
  induction l as [|x l IH]; simpl; [constructor|].
  now apply insert_sorted_sorted.
Qed.

Lemma sorted_strict l :
  NoDup l -> StronglySorted str_le l -> StronglySorted str_lt l.
Proof.
  intros Hn Hs. induction Hs as [|x l Hl IH Hx]; [constructor|].
  inversion Hn as [|? ? Hnin Hn']; subst.
  constructor; [now apply IH|].
  apply Forall_forall. intros y Hy.
  pose proof (proj1 (Forall_forall _ _) Hx y Hy) as Hle.
  unfold str_le, str_leb in Hle. apply negb_true_iff in Hle.
  unfold str_lt. destruct (str_ltb x y) eqn:E; [reflexivity|].
  exfalso. apply Hnin. now rewrite (str_ltb_total _ _ E Hle).
Qed.

(** What [sorted] returns does not depend on the order in which the set
    hands over its elements. *)
Lemma sorted_perm_invariant l1 l2 :
  NoDup l1 -> Permutation l1 l2 -> sorted l1 = sorted l2.
Proof.
  intros Hn Hp.
  assert (H1 : StronglySorted str_lt (sorted l1)).
  { apply sorted_strict; [|apply sorted_sorted].
    eapply Permutation_NoDup; [apply sorted_perm | exact Hn]. }
  assert (H2 : StronglySorted str_lt (sorted l2)).
  { apply sorted_strict; [|apply sorted_sorted].
    eapply Permutation_NoDup; [apply sorted_perm|].
    eapply Permutation_NoDup; eassumption. }
  assert (Hp' : Permutation (sorted l1) (sorted l2)).
  { rewrite <- (sorted_perm l1), <- (sorted_perm l2). exact Hp. }
  revert H1 H2 Hp'. generalize (sorted l1) (sorted l2). clear.
  intros a. induction a as [|x a IH]; intros b Ha Hb Hp.
  - apply Permutation_nil in Hp. now subst.
  - destruct b as [|y b].
    + symmetry in Hp. apply Permutation_nil in Hp. discriminate.
    + inversion Ha as [|? ? Ha' Hx]; subst.
      inversion Hb as [|? ? Hb' Hy]; subst.
      assert (E : x = y).
      { assert (Hxin : In x (y :: b))
          by (eapply Permutation_in; [exact Hp | now left]).
        assert (Hyin : In y (x :: a))
          by (eapply Permutation_in; [symmetry; exact Hp | now left]).
        destruct Hxin as [E|Hxin]; [now symmetry|].
        destruct Hyin as [E|Hyin]; [assumption|].
        pose proof (proj1 (Forall_forall _ _) Hx y Hyin) as L1.
        pose proof (proj1 (Forall_forall _ _) Hy x Hxin) as L2.
        unfold str_lt in *.
        pose proof (str_ltb_trans _ _ _ L1 L2) as L3.
        rewrite str_ltb_irrefl in L3. discriminate. }
      subst y. f_equal. apply IH; try assumption.
      eapply Permutation_cons_inv. exact Hp.
Qed.

(** ** The tokens of a candidate *)

Lemma words_acc_no_space w :
  Forall (fun c => is_space c = false) w ->
  forall acc r, words_acc acc (w ++ r) = words_acc (rev w ++ acc) r.
Proof.
  induction 1 as [|c w Hc _ IH]; intros acc r; [reflexivity|].
  simpl. rewrite Hc, IH, <- app_assoc. reflexivity.
Qed.

Lemma words_run_tail r :
  run_tail r ->
  forall acc, acc <> [] -> titlecase (rev acc) ->
    Forall titlecase (words_acc acc r).
Proof.
  induction 1 as [|sp w r Hsp Hw _ IH]; intros acc Hne Hacc.
  - simpl. destruct acc; [congruence|]. simpl. now constructor.
  - cbn [words_acc]. rewrite Hsp.
    destruct acc as [|a acc]; [congruence|]. cbn [nonempty].
    constructor; [assumption|].
    rewrite words_acc_no_space by now apply titlecase_no_space.
    rewrite app_nil_r. apply IH.
    + destruct Hw as (u & ls & -> & _). intros E.
      apply (f_equal (@length ascii)) in E. rewrite length_rev in E.
      discriminate.
    + now rewrite rev_involutive.
Qed.

Lemma words_name_run c : name_run c -> Forall titlecase (words c).
Proof.
  intros (w & r & -> & Hw & Hr). unfold words.
  rewrite words_acc_no_space by now apply titlecase_no_space.
  rewrite app_nil_r. apply words_run_tail; [assumption| |].
  - destruct Hw as (u & ls & -> & _). intros E.
    apply (f_equal (@length ascii)) in E. rewrite length_rev in E.
    discriminate.
  - now rewrite rev_involutive.
Qed.

Lemma extract_people_with_In stop_words text c :
  In c (extract_people_with stop_words text) <->
  In c (map group_1 (Re.finditer NAME_PATTERN text)) /\ ~ In c stop_words.
Proof.
  unfold extract_people_with.
  rewrite sorted_In, py_set_In, filter_In, negb_true_iff.
  split; intros [H1 H2]; (split; [assumption|]).
  - intros H. apply mem_In in H. congruence.
  - destruct (mem c stop_words) eqn:E; [|reflexivity].
    apply mem_In in E. contradiction.
Qed.

Lemma candidate_name_run text c :
  In c (map group_1 (Re.finditer NAME_PATTERN text)) -> name_run c.
Proof.
  intros H. apply in_map_iff in H. destruct H as (m & <- & Hm).
  unfold Re.finditer, scan_all in Hm.
  destruct (name_group1 _ _ _ _ _ Hm) as [Hg Hr].
  unfold group_1. now rewrite Hg.
Qed.

(** C10. Whatever the stop words, every extracted candidate is made of
    Titlecase words one whitespace character apart, each a capital followed
    by at least one small letter; so no token of a candidate, and no
    candidate, is a single letter. *)
Theorem single_letter_never_extracted stop_words text c :
  In c (extract_people_with stop_words text) ->
  name_run c /\
  (forall w, In w (words c) -> titlecase w /\ 2 <= length w) /\
  (forall u, ~ In [u] (words c)) /\
  (forall u, c <> [u]).
Proof.
  intros H. apply extract_people_with_In in H. destruct H as [H _].
  apply candidate_name_run in H.
  assert (Hw : forall w, In w (words c) -> titlecase w /\ 2 <= length w).
  { intros w Hin.
    pose proof (proj1 (Forall_forall _ _) (words_name_run _ H) w Hin) as Ht.
    split; [assumption | now apply titlecase_length]. }
  repeat split; try (apply Hw; assumption); try assumption.
  - intros u Hu. apply Hw in Hu. destruct Hu as [_ Hu]. simpl in Hu. lia.
  - intros u ->. destruct H as (w & r & E & Hw' & _).
    apply titlecase_length in Hw'.
    apply (f_equal (@length ascii)) in E. rewrite length_app in E.
    simpl in E. lia.
Qed.

Lemma single_letter_never_extracted_witness :
  name_run (chars "Mary Jane") /\
  extract_people_with [] (chars "I met J Edgar and Mary Jane")
  = [chars "Edgar"; chars "Mary Jane"].
Proof.
  split; [|vm_compute; reflexivity].
  apply (single_letter_never_extracted
           [] (chars "I met J Edgar and Mary Jane") (chars "Mary Jane")).
  vm_compute. right. left. reflexivity.
Defined.

(** C8. On empty or whitespace-only text [from_text] returns an entry
    whose feelings, events, health, situations and people are all empty. *)
Theorem blank_text_empty_entry text ts now :
  all_space text ->
  feelings (from_text text ts now) = [] /\
  events (from_text text ts now) = [] /\
  health (from_text text ts now) = [] /\
  situations (from_text text ts now) = [] /\
  people (from_text text ts now) = [].
Proof.
  intros H. cbn [from_text feelings events health situations people].
  rewrite (sentence_split_blank _ H). repeat split.
  unfold extract_people, extract_people_with.
  rewrite finditer_no_upper; [reflexivity|].
  eapply Forall_impl; [|exact H]. intros c Hc. simpl in Hc.
  destruct (is_upper c) eqn:E; [|reflexivity].
  apply upper_not_space in E. congruence.
Qed.

Lemma blank_text_empty_entry_witness :
  feelings (from_text (chars "  ") None T0) = [] /\
  events (from_text (chars "  ") None T0) = [] /\
  health (from_text (chars "  ") None T0) = [] /\
  situations (from_text (chars "  ") None T0) = [] /\
  people (from_text (chars "  ") None T0) = [].
Proof.
  apply (blank_text_empty_entry (chars "  ") None T0).
  repeat constructor.
Defined.

(** ** The name pattern on a maximal run *)

Lemma title_rmatch pv s g :
  rmatch title_word (Cursor pv s g) =
  match s with
  | u :: l :: s3 =>
      if is_upper u && is_lower l then runs is_lower (Some l) s3 g else []
  | _ => []
  end.
Proof.
  unfold title_word. rewrite rmatch_cat, rmatch_cls.
  destruct s as [|u s]; [reflexivity|]. rewrite take_cons.
  destruct (is_upper u); [|destruct s; reflexivity].
  cbn [flat_map andb]. rewrite app_nil_r, rmatch_plus_cls.
  destruct s; reflexivity.
Qed.

Lemma next_word_rmatch pv s g :
  rmatch next_word (Cursor pv s g) =
  match s with
  | sp :: u :: l :: s3 =>
      if is_space sp && (is_upper u && is_lower l)
      then runs is_lower (Some l) s3 g else []
  | _ => []
  end.
Proof.
  unfold next_word. rewrite rmatch_cat, rmatch_cls.
  destruct s as [|sp s]; [reflexivity|]. rewrite take_cons.
  destruct (is_space sp); [|destruct s as [|? [|? ?]]; reflexivity].
  cbn [flat_map andb]. rewrite app_nil_r, title_rmatch.
  destruct s as [|? [|? ?]]; reflexivity.
Qed.









Lemma bnd_capture st l :
  flat_map (rmatch Bnd) (map (capture st) l)
  = map (capture st) (filter at_boundary l).
Proof.
  induction l as [|x l IH]; [reflexivity|].
  cbn [map flat_map filter]. rewrite IH, rmatch_bnd.
  change (at_boundary (capture st x)) with (at_boundary x).
  destruct (at_boundary x); reflexivity.
Qed.

Lemma rmatch_star r st :
  rmatch (Star r) st = greedy (rmatch r) (length (rest st)) st.
Proof. reflexivity. Qed.





Lemma name_run_nonempty t : name_run t -> t <> [].
Proof.
  intros (w & r & -> & (u & ls & -> & _) & _). discriminate.
Qed.


(** ** The name extractor *)







Lemma two_spaces_two_names :
  extract_people (chars "John  Smith") = [chars "John"; chars "Smith"].
Proof. vm_compute. reflexivity. Qed.

(** ** What the interpreter leaves open *)

Lemma existsb_perm {A} (f : A -> bool) l1 l2 :
  Permutation l1 l2 -> existsb f l1 = existsb f l2.
Proof.
  induction 1 as [|x l1 l2 _ IH|x y l|l1 l2 l3 _ IH1 _ IH2]; simpl.
  - reflexivity.
  - now rewrite IH.
  - now destruct (f x), (f y).
  - congruence.
Qed.

Lemma detect_keywords_perm sentence k1 k2 :
  Permutation k1 k2 ->
  detect_keywords sentence k1 = detect_keywords sentence k2.
Proof. intros H. unfold detect_keywords. now apply existsb_perm. Qed.

Lemma extract_people_in_any order text :
  iterates order -> extract_people_in order text = extract_people text.
Proof.
  intros H. unfold extract_people_in, extract_people, extract_people_with.
  symmetry. apply sorted_perm_invariant; [apply py_set_NoDup|].
  symmetry. apply H.
Qed.

(** However the sets are iterated, the entry is the one of [from_text]. *)
Lemma from_text_in_any order text ts now :
  iterates order -> from_text_in order text ts now = from_text text ts now.
Proof.
  intros H. unfold from_text_in, from_text.
  rewrite (extract_people_in_any order text H).
  assert (E : forall K l,
             filter (fun s => detect_keywords s (order K)) l
             = filter (fun s => detect_keywords s K) l).
  { intros K l. apply filter_ext. intros s0.
    apply detect_keywords_perm, H. }
  rewrite !E. f_equal.
  apply filter_ext. intros s0.
  now rewrite (detect_keywords_perm s0 _ _ (H SITUATION_KEYWORDS)).
Qed.

(** C7. Entry construction is a function of the text and the timestamp
    alone.  Two things are left open when it runs: the order in which the
    interpreter iterates the sets of the module, and the clock.  With an
    explicit timestamp, two constructions from the same pair agree in every
    field whatever either is at each of them, and both give the entry of
    [from_text].  (Without a timestamp, only the timestamp field follows
    the clock.) *)
Theorem from_text_deterministic order1 order2 text ts now1 now2 :
  iterates order1 -> iterates order2 ->
  from_text_in order1 text (Some ts) now1
  = from_text_in order2 text (Some ts) now2 /\
  from_text_in order1 text (Some ts) now1 = from_text text (Some ts) now2 /\
  from_text text (Some ts) now1 = from_text text (Some ts) now2 /\
  raw_entry (from_text_in order1 text None now1)
  = raw_entry (from_text_in order2 text None now2) /\
  feelings (from_text_in order1 text None now1)
  = feelings (from_text_in order2 text None now2) /\
  events (from_text_in order1 text None now1)
  = events (from_text_in order2 text None now2) /\
  health (from_text_in order1 text None now1)
  = health (from_text_in order2 text None now2) /\
  situations (from_text_in order1 text None now1)
  = situations (from_text_in order2 text None now2) /\
  people (from_text_in order1 text None now1)
  = people (from_text_in order2 text None now2).
Proof.
  intros H1 H2.
  rewrite !(from_text_in_any order1 _ _ _ H1),
          !(from_text_in_any order2 _ _ _ H2).
  repeat split.
Qed.

Lemma from_text_deterministic_witness :
  from_text_in (fun s => s) (chars "Bob was happy. Alice met Bob.")
               (Some T0) T0
  = from_text_in (@rev str) (chars "Bob was happy. Alice met Bob.")
                 (Some T0) T0.
Proof.
  apply (from_text_deterministic (fun s => s) (@rev str)
           (chars "Bob was happy. Alice met Bob.") T0 T0 T0).
  - intros s. reflexivity.
  - intros s. symmetry. apply Permutation_rev.
Defined.

(** * Further properties of the classifier *)

(** ** More about [sentence_split] *)

Lemma sentence_split_nonblank text :
  ~ all_space text -> sentence_split text <> [].
Proof.
  intros H. rewrite sentence_split_cut.
  - apply cut_nonempty.
  - intros E. apply H, strip_nil_all_space, E.
Qed.

(** X1. [sentence_split] returns no sentence exactly when the text is empty
    or all whitespace. *)
Theorem sentence_split_empty_iff text :
  sentence_split text = [] <-> all_space text.
Proof.
  split; [|apply sentence_split_blank].
  intros E.
  destruct (strip text) as [|c s] eqn:Es.
  - now apply strip_nil_all_space.
  - exfalso. rewrite sentence_split_cut in E by (rewrite Es; discriminate).
    exact (cut_nonempty _ _ _ E).
Qed.

Lemma cut_shape s :
  (forall am, exists x l,
      cut false am s = x :: l /\ sep_free am x = true /\
      Forall (fun y => sep_free false y = true) l /\
      (l <> [] -> ends_mark am x = true) /\ init_marks l) /\
  (Forall (fun y => sep_free false y = true) (cut true false s) /\
   init_marks (cut true false s)).
Proof.
  induction s as [|c s [IH1 [IH2 IH3]]].
  - split.
    + intros am. exists [], []. repeat split; auto; try congruence.
    + simpl. split; [repeat constructor|].
      split; [intros H; now destruct H | exact I].
  - split.
    + intros am. cbn [cut]. destruct (is_space c) eqn:Hc.
      * destruct am.
        -- exists [], (cut true false s). repeat split; auto.
        -- destruct (IH1 false) as (x & l & E & Hx & Hl & He & Hi).
           rewrite E. exists (c :: x), l. cbn [push sep_free ends_mark andb].
           rewrite (space_not_terminal _ Hc). repeat split; auto.
      * destruct (IH1 (is_terminal c)) as (x & l & E & Hx & Hl & He & Hi).
        rewrite E. exists (c :: x), l. cbn [push sep_free ends_mark].
        rewrite Hc, andb_false_r. repeat split; auto.
    + cbn [cut]. destruct (is_space c) eqn:Hc; [split; assumption|].
      destruct (IH1 (is_terminal c)) as (x & l & E & Hx & Hl & He & Hi).
      rewrite E. cbn [push]. split.
      * constructor; [|assumption]. cbn [sep_free andb]. exact Hx.
      * cbn [init_marks ends_mark]. split; assumption.
Qed.

Lemma sentence_split_shape text :
  Forall (fun y => sep_free false y = true) (sentence_split text) /\
  init_marks (sentence_split text).
Proof.
  destruct (strip text) as [|c s] eqn:Es.
  - rewrite (sentence_split_blank text) by now apply strip_nil_all_space.
    split; constructor.
  - rewrite sentence_split_cut by (rewrite Es; discriminate).
    destruct (cut_shape (strip text)) as [H _].
    destruct (H false) as (x & l & E & Hx & Hl & He & Hi).
    rewrite E. split; [now constructor|]. cbn [init_marks]. split; assumption.
Qed.

Lemma ends_mark_last x :
  forall am, ends_mark am x = true -> x <> [] -> ends_in_mark x.
Proof.
  induction x as [|c x IH]; intros am H Hne; [congruence|].
  cbn [ends_mark] in H. destruct x as [|d x].
  - exists [], c. split; [reflexivity | exact H].
  - destruct (IH _ H ltac:(discriminate)) as (x' & e & E & He).
    exists (c :: x'), e. split; [simpl; now rewrite E | exact He].
Qed.

Lemma init_marks_inner l1 :
  forall s l2, init_marks (l1 ++ s :: l2) -> l2 <> [] ->
               ends_mark false s = true.
Proof.
  induction l1 as [|y l1 IH]; intros s l2 H Hne.
  - simpl in H. now apply H.
  - simpl in H. destruct H as [_ H]. eapply IH; eassumption.
Qed.

Lemma sentence_nonempty text s : In s (sentence_split text) -> s <> [].
Proof.
  unfold sentence_split. intros H.
  apply in_map_iff in H. destruct H as (x & <- & Hx).
  apply filter_In in Hx. destruct Hx as [_ Hx].
  intros E. rewrite E in Hx. discriminate.
Qed.

Lemma sentence_trimmed text s : In s (sentence_split text) -> trimmed s.
Proof.
  unfold sentence_split. intros H.
  apply in_map_iff in H. destruct H as (x & <- & _). apply strip_trimmed.
Qed.

(** X2. Every sentence that [sentence_split] returns, except possibly the
    last one, ends in a terminal mark. *)
Theorem sentences_end_in_marks text l1 s l2 :
  sentence_split text = l1 ++ s :: l2 -> l2 <> [] -> ends_in_mark s.
Proof.
  intros E Hne.
  destruct (sentence_split_shape text) as [_ Hi]. rewrite E in Hi.
  apply (ends_mark_last s false).
  - eapply init_marks_inner; eassumption.
  - apply (sentence_nonempty text). rewrite E. apply in_or_app. right. now left.
Qed.

Lemma sentences_end_in_marks_witness : ends_in_mark (chars "Two!").
Proof.
  apply (sentences_end_in_marks (chars " One.  Two!  three")
           [chars "One."] (chars "Two!") [chars "three"]).
  - vm_compute. reflexivity.
  - discriminate.
Defined.

Lemma sep_free_no_boundary x :
  forall am, sep_free am x = true -> ~ has_boundary x.
Proof.
  induction x as [|c x IH]; intros am H (a & m & w & b & E & Hm & Hw).
  - destruct a; discriminate.
  - cbn [sep_free] in H.
    destruct (am && is_space c); [discriminate|].
    destruct a as [|c' a].
    + simpl in E. injection E as -> ->. cbn [sep_free] in H.
      rewrite Hm, Hw in H. discriminate.
    + simpl in E. injection E as <- E.
      apply (IH _ H). now exists a, m, w, b.
Qed.

Lemma sep_free_cut x :
  forall am, sep_free am x = true -> cut false am x = [x].
Proof.
  induction x as [|c x IH]; intros am H; [reflexivity|].
  cbn [sep_free] in H. cbn [cut].
  destruct (is_space c) eqn:Hc.
  - destruct am; [discriminate|]. cbn [andb] in H.
    rewrite (space_not_terminal _ Hc) in H. now rewrite (IH _ H).
  - rewrite andb_false_r in H. now rewrite (IH _ H).
Qed.

(** X3. No sentence that [sentence_split] returns holds a terminal mark
    followed by whitespace, and splitting such a sentence again gives it
    back alone. *)
Theorem sentence_split_again text s :
  In s (sentence_split text) ->
  ~ has_boundary s /\ sentence_split s = [s].
Proof.
  intros H.
  destruct (sentence_split_shape text) as [Hf _].
  pose proof (proj1 (Forall_forall _ _) Hf s H) as Hs. simpl in Hs.
  split; [now apply (sep_free_no_boundary s false)|].
  pose proof (strip_fixed _ (sentence_trimmed _ _ H)) as Est.
  rewrite sentence_split_cut
    by (rewrite Est; now apply (sentence_nonempty text)).
  rewrite Est. now apply sep_free_cut.
Qed.

Lemma sentence_split_again_witness :
  ~ has_boundary (chars "Two?no.") /\
  sentence_split (chars "Two?no.") = [chars "Two?no."].
Proof.
  apply (sentence_split_again (chars "One.  Two?no. ") (chars "Two?no.")).
  vm_compute. right. left. reflexivity.
Defined.

Lemma substring_refl s : substring s s.
Proof. exists [], []. now rewrite app_nil_r. Qed.

Lemma substring_trans x y z : substring x y -> substring y z -> substring x z.
Proof.
  intros (a & b & ->) (c & d & ->). exists (c ++ a), (b ++ d).
  now rewrite <- !app_assoc.
Qed.

Lemma strip_substring s : substring (strip s) s.
Proof.
  destruct (strip_split s) as (a & b & E & _). now exists a, b.
Qed.

Lemma cut_substring s :
  (forall am x l, cut false am s = x :: l ->
     (exists b, s = x ++ b) /\ Forall (fun y => substring y s) l) /\
  Forall (fun y => substring y s) (cut true false s).
Proof.
  induction s as [|c s [IH1 IH2]].
  - split.
    + intros am x l E. injection E as <- <-. split; [now exists [] | constructor].
    + simpl. constructor; [apply substring_refl | constructor].
  - assert (Hw : forall l, Forall (fun y => substring y s) l ->
                           Forall (fun y => substring y (c :: s)) l).
    { intros l. apply Forall_impl. intros y (a & b & ->).
      now exists (c :: a), b. }
    split.
    + intros am x l E. cbn [cut] in E.
      destruct (is_space c) eqn:Hc; [destruct am|].
      * injection E as <- <-. split; [now exists (c :: s)|]. now apply Hw.
      * destruct (cut false false s) as [|x0 l0] eqn:E0;
          [now apply cut_nonempty in E0|].
        injection E as <- <-. destruct (IH1 _ _ _ E0) as [(b & Eb) Hl].
        split; [exists b; simpl; now rewrite <- Eb | now apply Hw].
      * destruct (cut false (is_terminal c) s) as [|x0 l0] eqn:E0;
          [now apply cut_nonempty in E0|].
        injection E as <- <-. destruct (IH1 _ _ _ E0) as [(b & Eb) Hl].
        split; [exists b; simpl; now rewrite <- Eb | now apply Hw].
    + cbn [cut]. destruct (is_space c) eqn:Hc; [now apply Hw|].
      destruct (cut false (is_terminal c) s) as [|x0 l0] eqn:E0;
        [now apply cut_nonempty in E0|].
      destruct (IH1 _ _ _ E0) as [(b & Eb) Hl]. cbn [push].
      constructor; [|now apply Hw].
      exists [], b. simpl. now rewrite <- Eb.
Qed.

(** X4. Every sentence that [sentence_split] returns stands in the input
    text as one contiguous piece. *)
Theorem sentences_are_substrings text s :
  In s (sentence_split text) -> substring s text.
Proof.
  unfold sentence_split. rewrite split_cut. intros H.
  apply in_map_iff in H. destruct H as (x & <- & Hx).
  apply filter_In in Hx. destruct Hx as [Hx _].
  apply (substring_trans _ x); [apply strip_substring|].
  apply (substring_trans _ (strip text)); [|apply strip_substring].
  destruct (cut false false (strip text)) as [|x0 l0] eqn:E0;
    [destruct Hx|].
  destruct (proj1 (cut_substring (strip text)) _ _ _ E0) as [(b & Eb) Hl].
  destruct Hx as [<-|Hx].
  - exists [], b. exact Eb.
  - exact (proj1 (Forall_forall _ _) Hl x Hx).
Qed.

Lemma sentences_are_substrings_witness :
  substring (chars "Two!") (chars " One.  Two!  three").
Proof.
  apply (sentences_are_substrings (chars " One.  Two!  three") (chars "Two!")).
  vm_compute. right. left. reflexivity.
Defined.

(** ** More about [from_text] and [detect_keywords] *)

(** X5. The situations of an entry are exactly the sentences of the text
    that hold a situation keyword and no feeling, event or health
    keyword. *)
Theorem situations_characterised text ts now s :
  In s (situations (from_text text ts now)) <->
  In s (sentence_split text) /\
  detect_keywords s SITUATION_KEYWORDS = true /\
  detect_keywords s FEELING_KEYWORDS = false /\
  detect_keywords s EVENT_KEYWORDS = false /\
  detect_keywords s HEALTH_KEYWORDS = false.
Proof.
  cbn [from_text situations]. rewrite filter_In, andb_true_iff, negb_true_iff.
  set (cat := py_set _).
  assert (Hcat : In s (sentence_split text) ->
            (mem s cat = false <->
             detect_keywords s FEELING_KEYWORDS = false /\
             detect_keywords s EVENT_KEYWORDS = false /\
             detect_keywords s HEALTH_KEYWORDS = false)).
  { intros Hs. split.
    - intros Hm.
      assert (Hn : ~ In s cat) by (intros Hin; apply mem_In in Hin; congruence).
      unfold cat in Hn. rewrite py_set_In, !in_app_iff, !filter_In in Hn.
      repeat split.
      + destruct (detect_keywords s FEELING_KEYWORDS); [tauto | reflexivity].
      + destruct (detect_keywords s EVENT_KEYWORDS); [tauto | reflexivity].
      + destruct (detect_keywords s HEALTH_KEYWORDS); [tauto | reflexivity].
    - intros (H1 & H2 & H3).
      destruct (mem s cat) eqn:Hm; [|reflexivity].
      apply mem_In in Hm. unfold cat in Hm.
      rewrite py_set_In, !in_app_iff, !filter_In in Hm.
      destruct Hm as [[_ H]|[[_ H]|[_ H]]]; congruence. }
  split.
  - intros (Hs & Hm & Hd). split; [assumption|]. split; [assumption|].
    now apply Hcat.
  - intros (Hs & Hd & H). split; [assumption|]. split; [|assumption].
    now apply Hcat.
Qed.

Lemma lower_idem s : lower (lower s) = lower s.
Proof.
  unfold lower. rewrite map_map. apply map_ext. apply lower_char_idem.
Qed.

Lemma whole_word_needs_lowercase w sentence :
  Re.matches (whole_word w) (lower sentence) = true -> lower w = w.
Proof.
  intros H. apply whole_word_matches in H.
  destruct H as (b1 & b2 & E & _).
  unfold lower in E. apply map_eq_app in E.
  destruct E as (before & rest0 & _ & _ & E).
  apply map_eq_app in E. destruct E as (u & behind & _ & <- & _).
  apply lower_idem.
Qed.

(** X6. A vocabulary word that is not all lowercase never matches:
    [detect_keywords] gives the same answer when such words are left out of
    the vocabulary. *)
Theorem detect_keywords_lowercase_only sentence keywords :
  detect_keywords sentence keywords
  = detect_keywords sentence
      (filter (fun word => str_eqb (lower word) word) keywords).
Proof.
  unfold detect_keywords. induction keywords as [|w kws IH]; [reflexivity|].
  cbn [existsb filter]. rewrite IH.
  destruct (str_eqb (lower w) w) eqn:E; [reflexivity|].
  destruct (Re.matches (whole_word w) (lower sentence)) eqn:M; [|reflexivity].
  apply whole_word_needs_lowercase in M. apply str_eqb_eq in M. congruence.
Qed.

Lemma capital_keyword_never_matches :
  detect_keywords (chars "Game night with game fans") [chars "Game"] = false.
Proof. vm_compute. reflexivity. Qed.

(** ** More about [extract_people] *)

Lemma scan_positions r :
  forall n ma p s m,
    In m (fst (scan n r ma (last_char None p) s)) ->
    exists a,
      s = a ++ text m ++ rest (after m) /\
      In (after m)
         (rmatch r (Cursor (last_char None (p ++ a))
                           (text m ++ rest (after m)) None)) /\
      grp1 m = group1 (after m).
Proof.
  induction n as [|n IH]; intros ma p s m H; [destruct H|].
  cbn [scan] in H.
  destruct (search r ma (last_char None p) s) as [f|] eqn:E; [|destruct H].
  destruct (scan n r (length (text f) =? 0) (prev (after f))
                 (rest (after f))) as [fs tl] eqn:Es.
  destruct (search_in _ _ _ _ _ E) as (Hin & Hg & Hs & _).
  rewrite <- last_char_app in Hin.
  cbn [fst] in H. destruct H as [<-|H].
  - exists (gap f). auto.
  - destruct (rmatch_sound _ _ _ Hin) as (t & [M1 M2] & _).
    cbn [rest prev] in M1, M2. apply app_inv_tail in M1. subst t.
    rewrite <- last_char_app in M2.
    assert (Hm : In m (fst (scan n r (length (text f) =? 0)
                                 (last_char None ((p ++ gap f) ++ text f))
                                 (rest (after f)))))
      by (rewrite <- M2, Es; exact H).
    destruct (IH _ _ _ _ Hm) as (a & Ha & Hin' & Hg').
    exists (gap f ++ text f ++ a). repeat split.
    + rewrite Hs, Ha at 1. now rewrite <- !app_assoc.
    + rewrite <- !app_assoc in Hin'. exact Hin'.
    + exact Hg'.
Qed.

(** X7. Every name that [extract_people] returns stands in the text as one
    contiguous piece with a word boundary at each end. *)
Theorem names_are_whole_words stop_words text c :
  In c (extract_people_with stop_words text) ->
  exists pre post,
    text = pre ++ c ++ post /\
    boundary pre (c ++ post) /\ boundary (pre ++ c) post.
Proof.
  intros H. apply extract_people_with_In in H. destruct H as [H _].
  apply in_map_iff in H. destruct H as (m & <- & Hm).
  unfold Re.finditer, scan_all in Hm.
  destruct (scan_positions _ _ _ [] _ _ Hm) as (a & Ha & Hin & Hg).
  destruct (name_sound _ _ Hin) as (t & [M1 M2] & _ & Hg1 & B1 & B2).
  cbn [rest prev app] in *. apply app_inv_tail in M1. subst t.
  unfold group_1. rewrite Hg, Hg1.
  exists a, (rest (after m)). split; [exact Ha|].
  unfold boundary, at_boundary in *. cbn [prev rest] in B1.
  split; [exact B1|]. rewrite M2, <- last_char_app in B2. exact B2.
Qed.

Lemma names_are_whole_words_witness :
  exists pre post,
    chars "Do ask Mary Jane, please" = pre ++ chars "Mary Jane" ++ post /\
    boundary pre (chars "Mary Jane" ++ post) /\
    boundary (pre ++ chars "Mary Jane") post.
Proof.
  apply (names_are_whole_words STOP_WORDS (chars "Do ask Mary Jane, please")
                               (chars "Mary Jane")).
  vm_compute. right. left. reflexivity.
Defined.

(** X8. The list that [extract_people] returns depends only on which
    candidates are found, not on where or how often they occur: two texts
    with the same candidates give the same list. *)
Theorem names_order_free stop_words text1 text2 :
  (forall c,
     In c (map group_1 (Re.finditer NAME_PATTERN text1)) <->
     In c (map group_1 (Re.finditer NAME_PATTERN text2))) ->
  extract_people_with stop_words text1 = extract_people_with stop_words text2.
Proof.
  intros H. unfold extract_people_with.
  apply sorted_perm_invariant; [apply py_set_NoDup|].
  apply NoDup_Permutation; try apply py_set_NoDup.
  intros c. rewrite !py_set_In, !filter_In, H. reflexivity.
Qed.

Lemma names_order_free_witness :
  extract_people_with STOP_WORDS (chars "Bob met Alice.")
  = extract_people_with STOP_WORDS (chars "Alice saw Bob, and Bob waved.").
Proof.
  apply (names_order_free STOP_WORDS (chars "Bob met Alice.")
           (chars "Alice saw Bob, and Bob waved.")).
  intros c. vm_compute. tauto.
Defined.

(** * The journal file and the command line *)

(** ** Dictionaries *)

Lemma str_eqb_refl k : str_eqb k k = true.
Proof. now apply str_eqb_eq. Qed.

Lemma str_eqb_neq k k' : k <> k' -> str_eqb k k' = false.
Proof.
  intros H. destruct (str_eqb k k') eqn:E; [|reflexivity].
  apply str_eqb_eq in E. contradiction.
Qed.

Lemma dict_get_set_same k v d : dict_get k (dict_set k v d) = Some v.
Proof.
  induction d as [|[k' v'] d IH]; simpl.
  - now rewrite str_eqb_refl.
  - destruct (str_eqb k k') eqn:E; simpl; rewrite E; [reflexivity | exact IH].
Qed.

Lemma dict_get_set_other k k' v d :
  k' <> k -> dict_get k' (dict_set k v d) = dict_get k' d.
Proof.
  intros H. induction d as [|[k0 v0] d IH]; simpl.
  - now rewrite (str_eqb_neq _ _ H).
  - destruct (str_eqb k k0) eqn:E; simpl; [|now rewrite IH].
    apply str_eqb_eq in E. subst k0. now rewrite (str_eqb_neq _ _ H).
Qed.

Lemma dict_set_twice k v0 v d :
  dict_set k v (dict_set k v0 d) = dict_set k v d.
Proof.
  induction d as [|[k0 w] d IH]; simpl.
  - now rewrite str_eqb_refl.
  - destruct (str_eqb k k0) eqn:E; simpl; rewrite E; [reflexivity|].
    now rewrite IH.
Qed.

Lemma dict_set_present k v d :
  dict_get k d <> None -> keys (dict_set k v d) = keys d.
Proof.
  induction d as [|[k0 v0] d IH]; simpl; [congruence|].
  destruct (str_eqb k k0) eqn:E; simpl; [reflexivity|].
  intros H. now rewrite IH.
Qed.

Lemma dict_set_absent k v d :
  dict_get k d = None -> dict_set k v d = d ++ [(k, v)].
Proof.
  induction d as [|[k0 v0] d IH]; simpl; [reflexivity|].
  destruct (str_eqb k k0) eqn:E; [discriminate|].
  intros H. now rewrite IH.
Qed.

(** ** [add_entry] *)

(** X9. When the journal is an object whose "entries" is an array (a
    missing file counts as one with no entries), [add_entry] builds the
    same object with the dictionary of the new entry appended to "entries",
    the keys and their order and the value of every other key unchanged.
    If [json.dump] writes that object, [add_entry] returns the entry built
    by [from_text] and the file holds the object; if [json.dump] raises,
    [add_entry] raises the same and the file is left unreadable. *)
Theorem add_entry_appends dump_error entry_text ts now file d items :
  load_journal file = Return (JDict d) ->
  dict_get (chars "entries") d = Some (JList items) ->
  exists d',
    dict_get (chars "entries") d'
    = Some (JList (items ++ [to_dict (from_text entry_text ts now)])) /\
    keys d' = keys d /\
    (forall k, k <> chars "entries" -> dict_get k d' = dict_get k d) /\
    add_entry dump_error entry_text ts now file
    = match dump_error (JDict d') with
      | None => (Return (from_text entry_text ts now), Holds (JDict d'))
      | Some (e, e') => (Raise (Codec e), Unreadable e')
      end.
Proof.
  intros Hl He. unfold add_entry. rewrite Hl. unfold setdefault. rewrite He.
  eexists. split; [apply dict_get_set_same|]. split; [|split].
  - apply dict_set_present. congruence.
  - intros k Hk. now apply dict_get_set_other.
  - unfold save_journal.
    destruct (dump_error (JDict (dict_set _ _ d))) as [[e e']|]; reflexivity.
Qed.

Lemma add_entry_appends_witness :
  exists d',
    dict_get (chars "entries") d'
    = Some (JList ([JNull]
                   ++ [to_dict (from_text (chars "I felt calm.") (Some T0) T0)]))
    /\ keys d' = keys [(chars "owner", JStr (chars "me"));
                       (chars "entries", JList [JNull])] /\
    (forall k, k <> chars "entries" ->
               dict_get k d'
               = dict_get k [(chars "owner", JStr (chars "me"));
                             (chars "entries", JList [JNull])]) /\
    add_entry (fun _ => None) (chars "I felt calm.") (Some T0) T0
              (Holds (JDict [(chars "owner", JStr (chars "me"));
                             (chars "entries", JList [JNull])]))
    = match (fun _ : json => @None (codec_error * codec_error)) (JDict d') with
      | None => (Return (from_text (chars "I felt calm.") (Some T0) T0),
                 Holds (JDict d'))
      | Some (e, e') => (Raise (Codec e), Unreadable e')
      end.
Proof.
  apply (add_entry_appends (fun _ => None) (chars "I felt calm.") (Some T0) T0
           (Holds (JDict [(chars "owner", JStr (chars "me"));
                          (chars "entries", JList [JNull])]))
           [(chars "owner", JStr (chars "me")); (chars "entries", JList [JNull])]
           [JNull]); reflexivity.
Defined.

(** X10. When the journal is an object without an "entries" key,
    [add_entry] adds the key at the end, holding the new entry alone, and
    keeps every other key and value as it was: that is the object the file
    holds if [json.dump] writes it, and if [json.dump] raises, [add_entry]
    raises the same and the file is left unreadable. *)
Theorem add_entry_first dump_error entry_text ts now file d :
  load_journal file = Return (JDict d) ->
  dict_get (chars "entries") d = None ->
  add_entry dump_error entry_text ts now file
  = match dump_error
            (JDict (d ++ [(chars "entries",
                           JList [to_dict (from_text entry_text ts now)])]))
    with
    | None =>
        (Return (from_text entry_text ts now),
         Holds (JDict (d ++ [(chars "entries",
                              JList [to_dict (from_text entry_text ts now)])])))
    | Some (e, e') => (Raise (Codec e), Unreadable e')
    end.
Proof.
  intros Hl He. unfold add_entry. rewrite Hl. unfold setdefault. rewrite He.
  cbn [app]. rewrite dict_set_twice, (dict_set_absent _ _ d He).
  unfold save_journal. destruct (dump_error _) as [[e e']|]; reflexivity.
Qed.

Lemma add_entry_first_witness :
  add_entry (fun _ => None) (chars "Hello.") None T0 (Holds (JDict []))
  = match (fun _ : json => @None (codec_error * codec_error))
            (JDict ([] ++ [(chars "entries",
                            JList [to_dict (from_text (chars "Hello.") None T0)])]))
    with
    | None =>
        (Return (from_text (chars "Hello.") None T0),
         Holds (JDict ([] ++ [(chars "entries",
                               JList [to_dict (from_text (chars "Hello.") None T0)])])))
    | Some (e, e') => (Raise (Codec e), Unreadable e')
    end.
Proof.
  apply (add_entry_first (fun _ => None) (chars "Hello.") None T0
           (Holds (JDict [])) []);
    reflexivity.
Defined.








(** ** [to_dict] *)

Lemma map_JStr_inj l1 :
  forall l2, map JStr l1 = map JStr l2 -> l1 = l2.
Proof.
  induction l1 as [|x l1 IH]; intros [|y l2] H; try discriminate;
    [reflexivity|].
  simpl in H. injection H as -> H. f_equal. now apply IH.
Qed.

(** X13. [to_dict] loses nothing: two entries with the same dictionary are
    the same entry. *)
Theorem to_dict_injective e1 e2 : to_dict e1 = to_dict e2 -> e1 = e2.
Proof.
  destruct e1, e2. unfold to_dict. cbn. intros H.
  injection H as H1 H2 H3 H4 H5 H6 H7.
  apply map_JStr_inj in H3, H4, H5, H6, H7. now subst.
Qed.

Lemma to_dict_injective_witness :
  from_text (chars "Hi. ") (Some T0) T0 = from_text (chars " Hi.") (Some T0) T0.
Proof.
  apply (to_dict_injective (from_text (chars "Hi. ") (Some T0) T0)
                           (from_text (chars " Hi.") (Some T0) T0)).
  vm_compute. reflexivity.
Defined.

(** ** [main] *)

Lemma nonempty_strip_blank s : all_space s -> nonempty (strip s) = false.
Proof. intros H. now rewrite (strip_all_space _ H). Qed.

Lemma nonempty_strip_text s : ~ all_space s -> nonempty (strip s) = true.
Proof.
  intros H. destruct (strip s) eqn:E; [|reflexivity].
  exfalso. apply H, strip_nil_all_space, E.
Qed.

(** X14. If the entry text, whether it comes from the flag or from standard
    input, is empty or all whitespace, [main] exits with "No journal entry
    provided." and the journal file stays as it was. *)
Theorem main_rejects_blank dump_error fromisoformat args stdin_text now file :
  all_space (if truthy (arg_entry args) then value (arg_entry args)
             else stdin_text) ->
  fst (fst (main dump_error fromisoformat args (Some stdin_text) now file))
  = Raise (SystemExit (chars "No journal entry provided.")) /\
  snd (fst (main dump_error fromisoformat args (Some stdin_text) now file))
  = file.
Proof.
  intros H. unfold main.
  destruct (truthy (arg_entry args)); rewrite (nonempty_strip_blank _ H);
    split; reflexivity.
Qed.

Lemma main_rejects_blank_witness :
  fst (fst (main (fun _ => None) (fun _ => None)
                 (Args (Some (chars "  ")) None)
                 (Some (chars "ignored")) T0 (Unreadable JSONDecodeError)))
  = Raise (SystemExit (chars "No journal entry provided.")) /\
  snd (fst (main (fun _ => None) (fun _ => None)
                 (Args (Some (chars "  ")) None)
                 (Some (chars "ignored")) T0 (Unreadable JSONDecodeError))) = Unreadable JSONDecodeError.
Proof.
  apply (main_rejects_blank (fun _ => None) (fun _ => None)
           (Args (Some (chars "  ")) None) (chars "ignored") T0
           (Unreadable JSONDecodeError)).
  repeat constructor.
Defined.

(** X15. If a timestamp is given and [fromisoformat] rejects it, [main]
    exits and the journal file stays as it was, whatever the entry text is.
    The text is looked at first: when it is empty or all whitespace the
    message is "No journal entry provided.", and otherwise it is "Invalid
    timestamp: " followed by the timestamp as given. *)
Theorem main_rejects_timestamp dump_error fromisoformat args stdin_text now
  file :
  truthy (arg_timestamp args) = true ->
  fromisoformat (value (arg_timestamp args)) = None ->
  snd (fst (main dump_error fromisoformat args (Some stdin_text) now file))
  = file /\
  (all_space (if truthy (arg_entry args) then value (arg_entry args)
              else stdin_text) ->
   fst (fst (main dump_error fromisoformat args (Some stdin_text) now file))
   = Raise (SystemExit (chars "No journal entry provided."))) /\
  (~ all_space (if truthy (arg_entry args) then value (arg_entry args)
                else stdin_text) ->
   fst (fst (main dump_error fromisoformat args (Some stdin_text) now file))
   = Raise (SystemExit (chars "Invalid timestamp: "
                        ++ value (arg_timestamp args)))).
Proof.
  intros Ht Hf. unfold main. split; [|split].
  - destruct (truthy (arg_entry args));
      destruct (nonempty (strip _)); cbn [negb]; rewrite ?Ht, ?Hf;
      reflexivity.
  - intros H.
    destruct (truthy (arg_entry args)); rewrite (nonempty_strip_blank _ H);
      reflexivity.
  - intros H.
    destruct (truthy (arg_entry args)); rewrite (nonempty_strip_text _ H);
      cbn [negb]; rewrite Ht, Hf; reflexivity.
Qed.

Lemma main_rejects_timestamp_witness :
  snd (fst (main (fun _ => None) (fun _ => None)
                 (Args (Some (chars "A fine day.")) (Some (chars "noon")))
                 (Some []) T0 Missing)) = Missing /\
  (all_space (chars "A fine day.") ->
   fst (fst (main (fun _ => None) (fun _ => None)
                  (Args (Some (chars "A fine day.")) (Some (chars "noon")))
                  (Some []) T0 Missing))
   = Raise (SystemExit (chars "No journal entry provided."))) /\
  (~ all_space (chars "A fine day.") ->
   fst (fst (main (fun _ => None) (fun _ => None)
                  (Args (Some (chars "A fine day.")) (Some (chars "noon")))
                  (Some []) T0 Missing))
   = Raise (SystemExit (chars "Invalid timestamp: " ++ chars "noon"))).
Proof.
  apply (main_rejects_timestamp (fun _ => None) (fun _ => None)
           (Args (Some (chars "A fine day.")) (Some (chars "noon")))
           [] T0 Missing).
  - reflexivity.
  - reflexivity.
Defined.



(** * Whitespace around the text *)

Lemma space_not_upper c : is_space c = true -> is_upper c = false.
Proof.
  intros H. destruct (is_upper c) eqn:E; [|reflexivity].
  apply upper_not_space in E. congruence.
Qed.

Lemma space_not_lower c : is_space c = true -> is_lower c = false.
Proof.
  intros H. destruct (is_lower c) eqn:E; [|reflexivity].
  apply lower_not_space in E. congruence.
Qed.

Lemma flat_map_nil {A B} (f : A -> list B) l :
  (forall x, In x l -> f x = []) -> flat_map f l = [].
Proof.
  induction l as [|x l IH]; intros H; [reflexivity|].
  simpl. rewrite (H x) by now left. apply IH. intros y Hy. apply H. now right.
Qed.

(** The fuel of a greedy repetition is never used up. *)
Lemma greedy_fuel step n :
  forall m st,
    length (rest st) <= n -> length (rest st) <= m ->
    greedy step n st = greedy step m st.
Proof.
  induction n as [|n IH]; intros m st Hn Hm.
  - destruct m as [|m]; [reflexivity|].
    rewrite greedy_S. cbn [greedy].
    rewrite flat_map_nil; [reflexivity|].
    intros x _. replace (length (rest st)) with 0 by lia. reflexivity.
  - destruct m as [|m].
    + rewrite greedy_S. cbn [greedy].
      rewrite flat_map_nil; [reflexivity|].
      intros x _. replace (length (rest st)) with 0 by lia. reflexivity.
    + rewrite !greedy_S. f_equal. apply flat_map_ext. intros x.
      destruct (length (rest x) <? length (rest st)) eqn:L; [|reflexivity].
      apply Nat.ltb_lt in L. apply IH; lia.
Qed.

Lemma Forall2_flat_map {A B} (R : A -> A -> Prop) (Q : B -> B -> Prop)
  (f g : A -> list B) l1 l2 :
  (forall x y, R x y -> Forall2 Q (f x) (g y)) ->
  Forall2 R l1 l2 -> Forall2 Q (flat_map f l1) (flat_map g l2).
Proof.
  intros H. induction 1 as [|x y l1 l2 Hxy _ IH]; [constructor|].
  simpl. apply Forall2_app; [now apply H | exact IH].
Qed.

Section Padding.

Variable b : str.
Hypothesis b_space : all_space b.

Lemma runs_padded pv s g :
  Forall2 (padded b) (runs is_lower pv (s ++ b) g) (runs is_lower pv s g).
Proof.
  revert pv. induction s as [|c s IH]; intros pv.
  - cbn [app runs]. destruct b_space as [|sp b' Hsp _].
    + repeat constructor.
    + cbn [runs]. rewrite (space_not_lower _ Hsp).
      repeat constructor.
  - cbn [app runs]. destruct (is_lower c).
    + apply Forall2_app; [apply IH|]. repeat constructor.
    + repeat constructor.
Qed.

Lemma title_padded x y :
  padded b x y ->
  Forall2 (padded b) (rmatch title_word x) (rmatch title_word y).
Proof.
  destruct x as [pvx sx gx], y as [pvy sy gy].
  intros (Hp & Hr & Hg). cbn [prev rest group1] in *. subst pvx sx gx.
  rewrite !title_rmatch.
  destruct sy as [|u [|l s3]]; cbn [app].
  - destruct b_space as [|sp b' Hsp Hb']; [constructor|].
    rewrite (space_not_upper _ Hsp). destruct b'; constructor.
  - destruct b_space as [|sp b' Hsp Hb']; [constructor|].
    rewrite (space_not_lower _ Hsp), andb_false_r. constructor.
  - destruct (is_upper u && is_lower l); [apply runs_padded | constructor].
Qed.

Lemma next_word_padded x y :
  padded b x y ->
  Forall2 (padded b) (rmatch next_word x) (rmatch next_word y).
Proof.
  destruct x as [pvx sx gx], y as [pvy sy gy].
  intros (Hp & Hr & Hg). cbn [prev rest group1] in *. subst pvx sx gx.
  rewrite !next_word_rmatch.
  destruct sy as [|c [|u [|l s3]]]; cbn [app].
  - destruct b_space as [|sp b' Hsp Hb']; [constructor|].
    destruct Hb' as [|u b2 Hu Hb2]; [constructor|].
    destruct b2 as [|l b3]; [constructor|].
    rewrite (space_not_upper _ Hu). cbn [andb].
    rewrite andb_false_r. constructor.
  - destruct b_space as [|u b' Hu Hb']; [constructor|].
    destruct b' as [|l b3]; [constructor|].
    rewrite (space_not_upper _ Hu). cbn [andb].
    rewrite andb_false_r. constructor.
  - destruct b_space as [|l b' Hl Hb']; [constructor|].
    rewrite (space_not_lower _ Hl), !andb_false_r. constructor.
  - destruct (is_space c && (is_upper u && is_lower l));
      [apply runs_padded | constructor].
Qed.

Lemma greedy_padded n :
  forall x y,
    padded b x y ->
    Forall2 (padded b) (greedy (rmatch next_word) n x)
            (greedy (rmatch next_word) n y).
Proof.
  induction n as [|n IH]; intros x y H.
  - repeat constructor; apply H.
  - rewrite !greedy_S. apply Forall2_app; [|repeat constructor; apply H].
    apply (Forall2_flat_map (padded b) (padded b));
      [|now apply next_word_padded].
    intros x' y' H'.
    assert (L : (length (rest x') <? length (rest x))
                = (length (rest y') <? length (rest y))).
    { destruct H as (_ & -> & _), H' as (_ & -> & _).
      rewrite !length_app.
      destruct (length (rest y') <? length (rest y)) eqn:E.
      - apply Nat.ltb_lt in E. apply Nat.ltb_lt. lia.
      - apply Nat.ltb_ge in E. apply Nat.ltb_ge. lia. }
    rewrite L. destruct (length (rest y') <? length (rest y));
      [now apply IH | constructor].
Qed.

Lemma boundary_padded x y : padded b x y -> at_boundary x = at_boundary y.
Proof.
  intros (Hp & Hr & _). unfold at_boundary. rewrite Hp, Hr.
  destruct (rest y) as [|c s]; [|reflexivity].
  cbn [app]. destruct b_space as [|sp b' Hsp _]; [reflexivity|].
  simpl. now rewrite (space_not_word _ Hsp).
Qed.

Lemma consumed_padded x y zx zy :
  padded b x y -> padded b zx zy ->
  length (rest zy) <= length (rest y) ->
  consumed x zx = consumed y zy.
Proof.
  intros (_ & Hx & _) (_ & Hz & _) L. unfold consumed.
  rewrite Hx, Hz, !length_app.
  replace (length (rest y) + length b - (length (rest zy) + length b))
    with (length (rest y) - length (rest zy)) by lia.
  rewrite firstn_app.
  replace (length (rest y) - length (rest zy) - length (rest y)) with 0
    by lia.
  simpl. apply app_nil_r.
Qed.

(** [NAME_PATTERN] matches the same way whether or not whitespace follows
    the subject. *)
Lemma name_padded x y :
  padded b x y ->
  Forall2 (padded b) (rmatch NAME_PATTERN x) (rmatch NAME_PATTERN y).
Proof.
  intros H. unfold NAME_PATTERN.
  change (Cat (Cls is_space) title_word) with next_word.
  rewrite !rmatch_cat, !rmatch_bnd, (boundary_padded _ _ H).
  destruct (at_boundary y); [|constructor].
  cbn [flat_map]. rewrite !app_nil_r, !rmatch_cat, !rmatch_grp, !bnd_capture.
  assert (HG : Forall2 (padded b)
                 (rmatch (Cat title_word (Star next_word)) x)
                 (rmatch (Cat title_word (Star next_word)) y)).
  { rewrite !rmatch_cat.
    apply (Forall2_flat_map (padded b) (padded b));
      [|now apply title_padded].
    intros x' y' H'. rewrite !rmatch_star.
    rewrite (greedy_fuel (rmatch next_word) (length (rest y'))
                         (length (rest x')) y' (Nat.le_refl _)).
    - now apply greedy_padded.
    - destruct H' as (_ & -> & _). rewrite length_app. lia. }
  assert (HL : Forall (fun zy => length (rest zy) <= length (rest y))
                 (rmatch (Cat title_word (Star next_word)) y)).
  { apply Forall_forall. intros zy Hz.
    destruct (rmatch_sound _ _ _ Hz) as (t & M & _).
    rewrite (moves_length _ _ _ M). lia. }
  revert HG HL.
  generalize (rmatch (Cat title_word (Star next_word)) x)
             (rmatch (Cat title_word (Star next_word)) y).
  intros lx ly HG. induction HG as [|zx zy lx ly Hz _ IH]; intros HL;
    [constructor|].
  inversion HL as [|? ? Hlen HL']; subst.
  cbn [filter map]. rewrite (boundary_padded _ _ Hz).
  destruct (at_boundary zy); [|now apply IH].
  cbn [map]. constructor; [|now apply IH].
  destruct Hz as (Hp & Hr & Hg). repeat split; cbn [capture prev rest group1].
  - exact Hp.
  - exact Hr.
  - f_equal. apply consumed_padded; [exact H | now repeat split | exact Hlen].
Qed.

Lemma search_blank pv : search NAME_PATTERN false pv b = None.
Proof.
  destruct (search NAME_PATTERN false pv b) as [f|] eqn:E; [|reflexivity].
  exfalso. destruct (search_in _ _ _ _ _ E) as (Hin & _ & Hs & _).
  destruct (name_sound _ _ Hin) as (t & [M _] & Hr & _).
  cbn [rest] in M. apply app_inv_tail in M. subst t.
  destruct (name_run_upper _ Hr) as (c & Hc & Hu).
  assert (Hcb : In c b).
  { rewrite Hs. apply in_or_app. right. apply in_or_app. now left. }
  pose proof (proj1 (Forall_forall _ _) b_space c Hcb) as Hsp. simpl in Hsp.
  apply upper_not_space in Hu. congruence.
Qed.

Lemma search_padded s :
  forall pv,
    match search NAME_PATTERN false pv (s ++ b),
          search NAME_PATTERN false pv s with
    | Some f1, Some f2 => same_match f1 f2 /\ padded b (after f1) (after f2)
    | None, None => True
    | _, _ => False
    end.
Proof.
  induction s as [|c s IH]; intros pv.
  - cbn [app]. rewrite search_blank. cbn [search].
    destruct (rmatch NAME_PATTERN (Cursor pv [] None)) as [|z l] eqn:E;
      [exact I|].
    assert (Hin : In z (rmatch NAME_PATTERN (Cursor pv [] None)))
      by (rewrite E; now left).
    destruct (name_sound _ _ Hin) as (t & [M _] & Hr & _).
    cbn [rest] in M. apply name_run_nonempty in Hr.
    destruct t; [congruence | discriminate].
  - cbn [app search].
    assert (Hpad : padded b (Cursor pv (c :: s ++ b) None)
                           (Cursor pv (c :: s) None))
      by (repeat split).
    pose proof (name_padded _ _ Hpad) as HF.
    destruct (rmatch NAME_PATTERN (Cursor pv (c :: s ++ b) None))
      as [|zx lx] eqn:Ex;
      destruct (rmatch NAME_PATTERN (Cursor pv (c :: s) None))
        as [|zy ly] eqn:Ey;
      try (now inversion HF).
    + specialize (IH (Some c)).
      destruct (search NAME_PATTERN false (Some c) (s ++ b)) as [f1|],
               (search NAME_PATTERN false (Some c) s) as [f2|];
        cbn [option_map]; try exact IH.
      destruct IH as [(Hg & Ht & Hg1) Ha].
      split; [|exact Ha].
      unfold same_match, skip. cbn [gap text grp1].
      repeat split; congruence.
    + inversion HF as [|? ? ? ? Hz _]; subst.
      cbn [after]. split; [|exact Hz].
      unfold same_match. cbn [gap text grp1]. repeat split.
      * assert (Hin : In zy (rmatch NAME_PATTERN (Cursor pv (c :: s) None)))
          by (rewrite Ey; now left).
        destruct (rmatch_sound _ _ _ Hin) as (t & M & _).
        apply consumed_padded; [exact Hpad | exact Hz|].
        rewrite (moves_length _ _ _ M). lia.
      * apply Hz.
Qed.

Lemma search_text_nonempty ma pv s f :
  search NAME_PATTERN ma pv s = Some f -> (length (text f) =? 0) = false.
Proof.
  intros E. destruct (search_in _ _ _ _ _ E) as (Hin & _).
  destruct (name_sound _ _ Hin) as (t & [M _] & Hr & _).
  cbn [rest] in M. apply app_inv_tail in M. subst t.
  apply name_run_nonempty in Hr. apply Nat.eqb_neq.
  destruct (text f); [congruence | discriminate].
Qed.

Lemma scan_padded n :
  forall pv s,
    Forall2 same_match (fst (scan n NAME_PATTERN false pv (s ++ b)))
            (fst (scan n NAME_PATTERN false pv s)).
Proof.
  induction n as [|n IH]; intros pv s; [constructor|].
  cbn [scan]. pose proof (search_padded s pv) as H.
  destruct (search NAME_PATTERN false pv (s ++ b)) as [f1|] eqn:E1,
           (search NAME_PATTERN false pv s) as [f2|] eqn:E2;
    try destruct H; [|constructor].
  rewrite (search_text_nonempty _ _ _ _ E1), (search_text_nonempty _ _ _ _ E2).
  destruct H0 as (Hp & Hr & _). rewrite Hp, Hr.
  specialize (IH (prev (after f2)) (rest (after f2))).
  destruct (scan n NAME_PATTERN false (prev (after f2)) (rest (after f2) ++ b))
    as [fs1 tl1],
    (scan n NAME_PATTERN false (prev (after f2)) (rest (after f2)))
    as [fs2 tl2].
  cbn [fst] in *. now constructor.
Qed.

End Padding.

Lemma same_match_groups l1 l2 :
  Forall2 same_match l1 l2 -> map group_1 l1 = map group_1 l2.
Proof.
  induction 1 as [|f1 f2 l1 l2 (_ & _ & Hg) _ IH]; [reflexivity|].
  simpl. unfold group_1 at 1 3. now rewrite Hg, IH.
Qed.

Lemma candidates_suffix s b :
  all_space b ->
  map group_1 (Re.finditer NAME_PATTERN (s ++ b))
  = map group_1 (Re.finditer NAME_PATTERN s).
Proof.
  intros Hb. unfold Re.finditer, scan_all.
  rewrite (scan_fuel NAME_PATTERN (2 * length s + 2)
                     (2 * length (s ++ b) + 2) false None s)
    by (rewrite ?length_app; lia).
  apply same_match_groups, scan_padded, Hb.
Qed.

Lemma name_rmatch_prev pv1 pv2 s g :
  word_at pv1 = word_at pv2 ->
  rmatch NAME_PATTERN (Cursor pv1 s g) = rmatch NAME_PATTERN (Cursor pv2 s g).
Proof.
  intros H. unfold NAME_PATTERN.
  rewrite !rmatch_cat, !rmatch_bnd. unfold at_boundary. cbn [prev rest].
  rewrite H. destruct (xorb (word_at pv2) (word_at (hd_error s)));
    [|reflexivity].
  cbn [flat_map]. rewrite !app_nil_r, !rmatch_cat, !rmatch_grp.
  rewrite !rmatch_cat, !title_rmatch. reflexivity.
Qed.

Lemma search_prev pv1 pv2 s :
  word_at pv1 = word_at pv2 ->
  search NAME_PATTERN false pv1 s = search NAME_PATTERN false pv2 s.
Proof.
  intros H. destruct s as [|c s]; cbn [search];
    rewrite (name_rmatch_prev pv1 pv2 _ None H); reflexivity.
Qed.

Lemma search_skip_space a :
  all_space a ->
  forall pv s,
    word_at pv = false ->
    search NAME_PATTERN false pv (a ++ s)
    = option_map (fun f => Found (a ++ gap f) (text f) (grp1 f) (after f))
                 (search NAME_PATTERN false pv s).
Proof.
  induction 1 as [|sp a Hsp _ IH]; intros pv s Hpv.
  - cbn [app]. destruct (search NAME_PATTERN false pv s) as [[g t g1 af]|];
      reflexivity.
  - cbn [app search].
    assert (E : rmatch NAME_PATTERN (Cursor pv (sp :: a ++ s) None) = []).
    { unfold NAME_PATTERN. rewrite rmatch_cat, rmatch_bnd.
      unfold at_boundary. cbn [prev rest hd_error word_at].
      now rewrite Hpv, (space_not_word _ Hsp). }
    rewrite E, IH by (simpl; now apply space_not_word).
    rewrite (search_prev (Some sp) pv s)
      by (simpl; rewrite Hpv; now apply space_not_word).
    destruct (search NAME_PATTERN false pv s) as [[g t g1 af]|]; reflexivity.
Qed.

Lemma candidates_prefix a s :
  all_space a ->
  map group_1 (Re.finditer NAME_PATTERN (a ++ s))
  = map group_1 (Re.finditer NAME_PATTERN s).
Proof.
  intros Ha. unfold Re.finditer, scan_all.
  rewrite (scan_fuel NAME_PATTERN (2 * length s + 2)
                     (2 * length (a ++ s) + 2) false None s)
    by (rewrite ?length_app; lia).
  replace (2 * length (a ++ s) + 2) with (S (2 * length (a ++ s) + 1)) by lia.
  cbn [scan]. rewrite (search_skip_space a Ha None s eq_refl).
  destruct (search NAME_PATTERN false None s) as [f|]; [|reflexivity].
  cbn [option_map text after].
  destruct (scan (2 * length (a ++ s) + 1) NAME_PATTERN
                 (length (text f) =? 0) (prev (after f)) (rest (after f)))
    as [fs tl].
  reflexivity.
Qed.

Lemma extract_people_padded a text b :
  all_space a -> all_space b ->
  extract_people (a ++ text ++ b) = extract_people text.
Proof.
  intros Ha Hb. unfold extract_people, extract_people_with.
  now rewrite (candidates_prefix a (text ++ b) Ha), (candidates_suffix text b Hb).
Qed.

Lemma lstrip_app_space a s : all_space a -> lstrip (a ++ s) = lstrip s.
Proof.
  induction 1 as [|c a Hc _ IH]; simpl; [reflexivity|]. now rewrite Hc.
Qed.

Lemma rstrip_app_space s b : all_space b -> rstrip (s ++ b) = rstrip s.
Proof.
  intros Hb. unfold rstrip. rewrite rev_app_distr.
  rewrite lstrip_app_space; [reflexivity | now apply Forall_rev].
Qed.

Lemma lstrip_app_keep s t c s' :
  lstrip s = c :: s' -> lstrip (s ++ t) = lstrip s ++ t.
Proof.
  induction s as [|d s IH]; simpl; [discriminate|].
  destruct (is_space d); [assumption | reflexivity].
Qed.

Lemma strip_padded a text b :
  all_space a -> all_space b -> strip (a ++ text ++ b) = strip text.
Proof.
  intros Ha Hb. unfold strip. rewrite (lstrip_app_space a _ Ha).
  destruct (lstrip text) as [|c s'] eqn:E.
  - destruct (lstrip_split text) as (a' & Et & Ha').
    rewrite E, app_nil_r in Et. subst a'.
    rewrite (lstrip_all_space (text ++ b)); [reflexivity|].
    apply Forall_app. now split.
  - rewrite (lstrip_app_keep text b c s' E), E.
    now apply rstrip_app_space.
Qed.

(** X17. Whitespace around the text changes nothing: a text with whitespace
    put before and after it gives the same entry, field for field, and so
    does the stripped text, which is what [main] hands to [add_entry]. *)
Theorem from_text_ignores_padding text ts now :
  (forall a b,
     all_space a -> all_space b ->
     from_text (a ++ text ++ b) ts now = from_text text ts now) /\
  from_text (strip text) ts now = from_text text ts now.
Proof.
  assert (H : forall t a b,
             all_space a -> all_space b ->
             from_text (a ++ t ++ b) ts now = from_text t ts now).
  { intros t a b Ha Hb. unfold from_text, sentence_split.
    now rewrite (strip_padded a t b Ha Hb),
                (extract_people_padded a t b Ha Hb). }
  split; [apply H|].
  destruct (strip_split text) as (a & b & E & Ha & Hb).
  rewrite E at 2. symmetry. now apply H.
Qed.

Lemma from_text_ignores_padding_witness :
  from_text (chars "  " ++ chars "Mary was happy." ++ chars " ") None T0
  = from_text (chars "Mary was happy.") None T0.
Proof.
  apply (proj1 (from_text_ignores_padding (chars "Mary was happy.") None T0)
               (chars "  ") (chars " ")); repeat constructor.
Defined.

(** * Logic Episodes *)

Section Adventure.
Import Episodes.

(** ** Running a piece of the script by cases

    The functions are run on a terminal whose input is a variable; [cases]
    splits on the input being there and on each comparison of an answer,
    and leaves the calls of [train], [railway], [round] and [game] for the
    lemmas about them. *)

Ltac simp :=
  cbn -[chars lower str_eqb join str_of_Z app int Z.add Z.sub Z.leb Z.eqb
        railway round game train].

Ltac split_case :=
  match goal with
  | |- context [match ?l with [] => _ | _ :: _ => _ end] =>
      is_var l; destruct l
  | |- context [if ?b then _ else _] => destruct b eqn:?
  end.

Ltac cases := repeat (simp; split_case); simp.

Ltac cases_lower :=
  repeat (simp; rewrite ?lower_idem; simp; split_case); simp.

Ltac solve_reads :=
  unfold reads; cbn [stdin];
  first [ exists []; split; [reflexivity | simpl; lia]
        | match goal with
          | |- exists used, ?x :: ?l = used ++ ?l /\ _ =>
              exists [x]; split; [reflexivity | simpl; lia]
          | |- exists used, ?x :: ?y :: ?l = used ++ ?l /\ _ =>
              exists [x; y]; split; [reflexivity | simpl; lia]
          | |- exists used, ?x :: ?l = used ++ [] /\ _ =>
              exists (x :: l); split; [now rewrite app_nil_r | simpl; lia]
          end ].

Ltac use_reads :=
  match goal with
  | H : reads _ _ _ |- reads _ _ _ =>
      let u := fresh "u" in
      let Hu := fresh "Hu" in
      let Lu := fresh "Lu" in
      destruct H as (u & Hu & Lu); unfold reads; cbn [stdin] in *;
      rewrite Hu;
      first [ exists u; split; [reflexivity | simpl; lia]
            | match goal with
              | |- exists used, ?x :: ?y :: u ++ ?l = used ++ ?l /\ _ =>
                  exists (x :: y :: u); split; [reflexivity | simpl; lia]
              | |- exists used, ?x :: u ++ ?l = used ++ ?l /\ _ =>
                  exists (x :: u); split; [reflexivity | simpl; lia]
              end ]
  end.

Ltac solve_reported :=
  unfold reported; cbn [screen]; eexists; rewrite <- app_assoc; reflexivity.

(** ** The functions, one by one *)

(** [train] reads nothing, ends the game and counts one chance and one
    stage. *)
Lemma train_spec g t :
  exists t',
    train g t
    = (Ok tt,
       Globals (name g) (age g) (health g) true (chance g + 1) (stage g + 1),
       t') /\
    stdin t' = stdin t /\
    reported
      (Globals (name g) (age g) (health g) true (chance g + 1) (stage g + 1))
      t'.
Proof.
  destruct g as [n a h go c s], t as [l sc].
  unfold train, the_end, print, emit, bind, get, set_stage, set_chance,
    set_game_over, ret.
  simp. eexists. split; [reflexivity|]. split; [reflexivity|].
  solve_reported.
Qed.

(** [railway] reads at most two lines; when it returns the game is over, the
    report is on the terminal, and the counters have moved in one of three
    ways.  It fails only for want of input. *)
Lemma railway_spec g t :
  match railway g t with
  | (Ok _, g', t') =>
      reads 2 t t' /\ kept g g' /\ game_over g' = true /\ reported g' t' /\
      health g' = health g /\
      ((chance g' = chance g + 1 /\ stage g' = stage g + 1) \/
       (chance g' = chance g + 2 /\ stage g' = stage g + 1) \/
       (chance g' = chance g + 1 /\ stage g' = stage g + 2))%Z
  | (Err e, g', t') => e = EOFError /\ stdin t' = [] /\ reads 2 t t'
  end.
Proof.
  destruct g as [n a h go c s], t as [l sc].
  unfold railway, the_end, show_health, print, input, emit, bind, get,
    set_stage, set_chance, set_game_over, ret.
  cases.
  all: try match goal with
           | |- context [train ?g ?t] =>
               destruct (train_spec g t) as (t' & E & Hs & Hr);
               rewrite E; clear E; simp;
               cbn [name age health chance stage game_over stdin screen]
                 in Hs, Hr
           end.
  all: unfold kept; cbn [health chance stage game_over name age].
  all: repeat split;
    try (unfold reads; cbn [stdin]; rewrite ?Hs); try solve_reads;
    try solve_reported; try assumption; try lia.
  all: try (left; split; lia); try (right; left; split; lia);
    try (right; right; split; lia).
Qed.

(** One round of [game] reads at most four lines; when it returns the game
    is over, the report is on the terminal, and health, chances and stages
    stand in one of four ways. *)
Lemma round_spec g t :
  match round g t with
  | (Ok _, g', t') =>
      reads 4 t t' /\ kept g g' /\ game_over g' = true /\ reported g' t' /\
      ((health g' = health g /\ chance g' = chance g + 1 /\ stage g' = 1) \/
       (health g' = health g - 1 /\ chance g' = chance g + 1 /\ stage g' = 2) \/
       (health g' = health g - 1 /\ chance g' = chance g + 2 /\ stage g' = 2) \/
       (health g' = health g - 1 /\ chance g' = chance g + 1 /\ stage g' = 3))%Z
  | (Err e, g', t') => e = EOFError /\ stdin t' = [] /\ reads 4 t t'
  end.
Proof.
  destruct g as [n a h go c s], t as [l sc].
  unfold round, the_end, show_health, print, input, emit, bind, get,
    set_stage, set_chance, set_health, set_game_over, ret.
  cases.
  all: try match goal with
           | |- context [railway ?g ?t] =>
               pose proof (railway_spec g t) as R;
               destruct (railway g t) as [[[[]|e] g2] t2]; simp;
               cbn [name age health chance stage game_over stdin screen] in R
           end.
  all: unfold kept in *; cbn [health chance stage game_over name age].
  all: try (destruct R as (Rr & (Rn & Ra) & Rg & Rp & Rh & Rc)).
  all: try (destruct R as (Re & Rs & Rr)).
  all: repeat split; try use_reads; try solve_reads; try solve_reported;
    try assumption; try lia.
  all: try (left; repeat split; lia).
  all: destruct Rc as [Rc|[Rc|Rc]];
    [ right; left; repeat split; lia
    | right; right; left; repeat split; lia
    | right; right; right; repeat split; lia ].
Qed.

Lemma game_done fuel g t : game_over g = true -> game fuel g t = (Ok tt, g, t).
Proof.
  intros H. destruct fuel; unfold game, bind, get, ret; rewrite H; reflexivity.
Qed.

Lemma game_round fuel g t :
  game_over g = false -> game (S fuel) g t = round g t.
Proof.
  intros H. change (game (S fuel)) with
    (bind (get game_over) (fun over => if over then ret tt
                                       else bind round (fun _ => game fuel))).
  unfold bind at 1, get. rewrite H. unfold bind.
  pose proof (round_spec g t) as R.
  destruct (round g t) as [[[[]|e] g'] t']; [|reflexivity].
  apply game_done, R.
Qed.

(** The body of the script reads at most five lines; when it returns the
    game is over, the report is on the terminal, and the counters stand in
    one of five ways. *)
Lemma play_spec fuel g t :
  match play (S fuel) g t with
  | (Ok _, g', t') =>
      reads 5 t t' /\ kept g g' /\ game_over g' = true /\ reported g' t' /\
      ((health g' = health g /\ chance g' = chance g + 1 /\ stage g' = stage g) \/
       (health g' = health g /\ chance g' = chance g + 1 /\ stage g' = 1) \/
       (health g' = health g - 1 /\ chance g' = chance g + 1 /\ stage g' = 2) \/
       (health g' = health g - 1 /\ chance g' = chance g + 2 /\ stage g' = 2) \/
       (health g' = health g - 1 /\ chance g' = chance g + 1 /\ stage g' = 3))%Z
  | (Err e, g', t') => e = EOFError /\ stdin t' = [] /\ reads 5 t t'
  end.
Proof.
  destruct g as [n a h go c s], t as [l sc].
  unfold play, the_end, print, input, emit, bind, get, set_game_over,
    set_chance, ret.
  cases.
  all: try match goal with
           | |- context [game (S ?f) ?g ?t] =>
               rewrite (game_round f g t) by reflexivity;
               pose proof (round_spec g t) as R;
               destruct (round g t) as [[[[]|e] g2] t2]; simp;
               cbn [name age health chance stage game_over stdin screen] in R
           end.
  all: unfold kept in *; cbn [health chance stage game_over name age].
  all: try (destruct R as (Rr & (Rn & Ra) & Rg & Rp & Rc)).
  all: try (destruct R as (Re & Rs & Rr)).
  all: repeat split; try use_reads; try solve_reads; try solve_reported;
    try assumption; try lia.
  all: try (left; repeat split; lia).
  all: right; destruct Rc as [Rc|[Rc|[Rc|Rc]]];
    [ left; repeat split; lia
    | right; left; repeat split; lia
    | right; right; left; repeat split; lia
    | right; right; right; repeat split; lia ].
Qed.




(** Room for one round of the loop is room enough. *)
Lemma play_fuel fuel g t : play (S fuel) g t = play 1 g t.
Proof.
  destruct g as [n a h go c s], t as [l sc].
  unfold play, the_end, print, input, emit, bind, get, set_game_over,
    set_chance, ret.
  cases; try reflexivity.
  rewrite !game_round by reflexivity. reflexivity.
Qed.

Lemma script_fuel fuel lines : script_with (S fuel) lines = script lines.
Proof.
  unfold script, script_with.
  destruct lines as [|n [|a l]]; try reflexivity.
  destruct (int a); [|reflexivity]. now rewrite play_fuel.
Qed.

Lemma script_play n a rest years :
  int a = Some years ->
  script (n :: a :: rest) =
  let '(r, g, t) :=
    play 1 (Globals n years 10 false 0 0) (Terminal rest welcome) in
  Ending r (AllGlobals g) t.
Proof. intros E. unfold script, script_with. rewrite E. reflexivity. Qed.

(** ** The loop of [game] *)

(** X18. The loop of [game] runs its body once at most: started while the
    game is not over, [game] does what one round does, however many rounds
    the loop has room for, and when it returns the game is over. *)
Theorem game_is_one_round fuel g t :
  game_over g = false ->
  game (S fuel) g t = round g t /\
  forall g' t', game (S fuel) g t = (Ok tt, g', t') -> game_over g' = true.
Proof.
  intros H. rewrite game_round by exact H. split; [reflexivity|].
  intros g' t' E. pose proof (round_spec g t) as R. rewrite E in R. apply R.
Qed.

Lemma game_is_one_round_witness :
  game 3 (Globals (chars "Ann") 15 10 false 0 0)
         (Terminal [chars "left"] [])
  = round (Globals (chars "Ann") 15 10 false 0 0)
          (Terminal [chars "left"] []) /\
  forall g' t',
    game 3 (Globals (chars "Ann") 15 10 false 0 0)
           (Terminal [chars "left"] [])
    = (Ok tt, g', t') ->
    game_over g' = true.
Proof.
  apply (game_is_one_round 2 (Globals (chars "Ann") 15 10 false 0 0)
           (Terminal [chars "left"] [])).
  reflexivity.
Defined.

(** ** The script as a whole *)

(** X19. A run of the script that ends without an exception has read a name
    and an age that is an integer, the game is over, name and age are as
    entered, and health, chances and stages are one of (10, 1, 0),
    (10, 1, 1), (9, 1, 2), (9, 2, 2) and (9, 1, 3); so the health never
    gets to zero. *)
Theorem finished_states lines :
  result (script lines) = Ok tt ->
  exists n a rest years g,
    lines = n :: a :: rest /\ int a = Some years /\
    final (script lines) = AllGlobals g /\
    name g = n /\ age g = years /\ game_over g = true /\
    In (health g, chance g, stage g)
       [(10, 1, 0); (10, 1, 1); (9, 1, 2); (9, 2, 2); (9, 1, 3)]%Z.
Proof.
  destruct lines as [|n [|a rest]]; try discriminate.
  destruct (int a) as [years|] eqn:E.
  2:{ unfold script, script_with. rewrite E. discriminate. }
  rewrite (script_play _ _ _ _ E).
  match goal with
  | |- context [play 1 ?g ?t] =>
      pose proof (play_spec 0 g t) as P;
      destruct (play 1 g t) as [[[[]|e] g'] t']
  end; [|discriminate].
  intros _. exists n, a, rest, years, g'.
  destruct P as (_ & (Pn & Pa) & Pg & _ & Pc). cbn in Pn, Pa, Pc |- *.
  repeat split; try assumption.
  destruct Pc as [(-> & -> & ->)|[(-> & -> & ->)|[(-> & -> & ->)
                 |[(-> & -> & ->)|(-> & -> & ->)]]]];
    cbn; auto 10.
Qed.

Lemma finished_states_witness :
  exists n a rest years g,
    [chars "Ann"; chars "15"; chars "Y"; chars "HEALTH"; chars "right";
     chars "train"] = n :: a :: rest /\
    int a = Some years /\
    final (script [chars "Ann"; chars "15"; chars "Y"; chars "HEALTH";
                   chars "right"; chars "train"]) = AllGlobals g /\
    name g = n /\ age g = years /\ game_over g = true /\
    In (health g, chance g, stage g)
       [(10, 1, 0); (10, 1, 1); (9, 1, 2); (9, 2, 2); (9, 1, 3)]%Z.
Proof.
  apply (finished_states
           [chars "Ann"; chars "15"; chars "Y"; chars "HEALTH";
            chars "right"; chars "train"]).
  vm_compute. reflexivity.
Defined.

(** X20. Someone younger than twelve does not get to play: the script says
    so, reports one chance and no stage, and ends with the health at 10,
    having read nothing after the age. *)
Theorem too_young_to_play n a rest years :
  int a = Some years -> (years < 12)%Z ->
  script (n :: a :: rest) =
  Ending (Ok tt) (AllGlobals (Globals n years 10 true 1 0))
    (Terminal rest
       (welcome ++
        [Say (chars "Sorry, you`re too young to play this game");
         report (Globals n years 10 true 1 0); Sleep 2])).
Proof.
  intros E Hy. rewrite (script_play _ _ _ _ E).
  unfold play, bind, get. cbn [age].
  replace (12 <=? years)%Z with false by (symmetry; apply Z.leb_gt, Hy).
  reflexivity.
Qed.

Lemma too_young_to_play_witness :
  script [chars "Tim"; chars " 11 "; chars "y"] =
  Ending (Ok tt) (AllGlobals (Globals (chars "Tim") 11 10 true 1 0))
    (Terminal [chars "y"]
       (welcome ++
        [Say (chars "Sorry, you`re too young to play this game");
         report (Globals (chars "Tim") 11 10 true 1 0); Sleep 2])).
Proof.
  apply (too_young_to_play (chars "Tim") (chars " 11 ") [chars "y"] 11).
  - reflexivity.
  - lia.
Defined.

(** X21. Someone of twelve or more who answers the question whether to play
    with anything but y, in either case of the letter, does not play: the
    script says goodbye, reports one chance and no stage, and reads
    nothing more. *)
Theorem declined_to_play n a w rest years :
  int a = Some years -> (12 <= years)%Z -> lower w <> chars "y" ->
  script (n :: a :: w :: rest) =
  Ending (Ok tt) (AllGlobals (Globals n years 10 true 1 0))
    (Terminal rest
       (welcome ++
        [Say (chars "Congrats, you may play " ++ [dq] ++ chars "Logic Episodes" ++ [dq] ++ chars " right now!");
         Ask (chars "Do you wanna play? (y/n) ");
         Say (chars "C U L8R");
         report (Globals n years 10 true 1 0); Sleep 2])).
Proof.
  intros E Hy Hw. rewrite (script_play _ _ _ _ E).
  unfold play, bind, get. cbn [age].
  replace (12 <=? years)%Z with true by (symmetry; apply Z.leb_le, Hy).
  unfold print, emit, input. cbn [stdin screen].
  rewrite (str_eqb_neq _ _ Hw). reflexivity.
Qed.

Lemma declined_to_play_witness :
  script [chars "Tim"; chars "12"; chars "yes"; chars "left"] =
  Ending (Ok tt) (AllGlobals (Globals (chars "Tim") 12 10 true 1 0))
    (Terminal [chars "left"]
       (welcome ++
        [Say (chars "Congrats, you may play " ++ [dq] ++ chars "Logic Episodes" ++ [dq] ++ chars " right now!");
         Ask (chars "Do you wanna play? (y/n) ");
         Say (chars "C U L8R");
         report (Globals (chars "Tim") 12 10 true 1 0); Sleep 2])).
Proof.
  apply (declined_to_play (chars "Tim") (chars "12") (chars "yes")
           [chars "left"] 12).
  - reflexivity.
  - lia.
  - vm_compute. discriminate.
Defined.

(** X22. The script reads at most seven lines, from the front of its input,
    and leaves the rest unread. *)
Theorem script_reads_seven lines :
  exists used,
    lines = used ++ stdin (term (script lines)) /\ length used <= 7.
Proof.
  destruct lines as [|n [|a rest]].
  - exists []. split; [reflexivity | simpl; lia].
  - exists [n]. split; [reflexivity | simpl; lia].
  - destruct (int a) as [years|] eqn:E.
    2:{ exists [n; a]. unfold script, script_with. rewrite E.
        split; [reflexivity | simpl; lia]. }
    rewrite (script_play _ _ _ _ E).
    match goal with
    | |- context [play 1 ?g ?t] =>
        pose proof (play_spec 0 g t) as P;
        destruct (play 1 g t) as [[[[]|e] g'] t']
    end.
    + destruct P as ((u & Hu & Lu) & _). cbn in Hu |- *.
      exists (n :: a :: u). rewrite Hu. split; [reflexivity | simpl; lia].
    + destruct P as (_ & _ & (u & Hu & Lu)). cbn in Hu |- *.
      exists (n :: a :: u). rewrite Hu. split; [reflexivity | simpl; lia].
Qed.

(** X23. A run that ends without an exception ends with the report of
    [the_end]: the last line printed names the player, the chances and the
    stages as they are in the end, and the two seconds of sleep follow
    it. *)
Theorem report_comes_last lines g :
  result (script lines) = Ok tt -> final (script lines) = AllGlobals g ->
  exists before,
    screen (term (script lines)) = before ++ [report g; Sleep 2].
Proof.
  destruct lines as [|n [|a rest]]; try discriminate.
  destruct (int a) as [years|] eqn:E.
  2:{ unfold script, script_with. rewrite E. discriminate. }
  rewrite (script_play _ _ _ _ E).
  match goal with
  | |- context [play 1 ?g ?t] =>
      pose proof (play_spec 0 g t) as P;
      destruct (play 1 g t) as [[[[]|e] g'] t']
  end; [|discriminate].
  cbn. intros _ [= <-]. apply P.
Qed.

Lemma report_comes_last_witness :
  exists before,
    screen (term (script [chars "Ann"; chars "15"; chars "y"; chars "Right";
                          chars "girl"]))
    = before ++ [report (Globals (chars "Ann") 15 9 true 1 2); Sleep 2].
Proof.
  apply (report_comes_last
           [chars "Ann"; chars "15"; chars "y"; chars "Right"; chars "girl"]
           (Globals (chars "Ann") 15 9 true 1 2)).
  - vm_compute. reflexivity.
  - vm_compute. reflexivity.
Defined.


(** ** Answers in capitals *)

Lemma railway_lower g l sc :
  lowered (railway g (Terminal (map lower l) sc)) (railway g (Terminal l sc)).
Proof.
  destruct g as [n a h go c s].
  unfold lowered, railway, train, the_end, show_health, print, input, emit,
    bind, get, set_stage, set_chance, set_game_over, ret.
  destruct l as [|x [|y l]]; cases_lower; auto.
Qed.

Lemma round_lower g l sc :
  lowered (round g (Terminal (map lower l) sc)) (round g (Terminal l sc)).
Proof.
  destruct g as [n a h go c s].
  unfold round, the_end, show_health, print, input, emit,
    bind, get, set_stage, set_chance, set_health, set_game_over, ret.
  destruct l as [|x [|y l]]; cases_lower;
    try (unfold lowered; simp; now auto).
  all: match goal with
       | |- context [railway ?g (Terminal (lower ?y :: map lower ?l) ?sc)] =>
           exact (railway_lower g (y :: l) sc)
       | |- context [railway ?g (Terminal (map lower ?l) ?sc)] =>
           exact (railway_lower g l sc)
       end.
Qed.

Lemma play_lower g l sc :
  lowered (play 1 g (Terminal (map lower l) sc)) (play 1 g (Terminal l sc)).
Proof.
  destruct g as [n a h go c s].
  unfold play, the_end, print, input, emit, bind, get, set_game_over,
    set_chance, ret.
  destruct l as [|x l]; cases_lower;
    try (unfold lowered; simp; now auto).
  rewrite !game_round by reflexivity.
  match goal with
  | |- context [round ?g (Terminal (map lower ?l) ?sc)] =>
      apply (round_lower g l sc)
  end.
Qed.

(** X25. The answers are read without regard to case: with every line after
    the age put to lower case the script ends the same way, with the same
    globals and the same things on the terminal, and leaves the lower-case
    forms of the same lines unread. *)
Theorem answers_ignore_case n a rest :
  result (script (n :: a :: map lower rest)) = result (script (n :: a :: rest)) /\
  final (script (n :: a :: map lower rest)) = final (script (n :: a :: rest)) /\
  screen (term (script (n :: a :: map lower rest))) =
    screen (term (script (n :: a :: rest))) /\
  stdin (term (script (n :: a :: map lower rest))) =
    map lower (stdin (term (script (n :: a :: rest)))).
Proof.
  destruct (int a) as [years|] eqn:E.
  2:{ unfold script, script_with. rewrite E. cbn. auto. }
  rewrite !(script_play _ _ _ _ E).
  match goal with
  | |- context [play 1 ?g (Terminal (map lower ?l) ?sc)] =>
      pose proof (play_lower g l sc) as P;
      destruct (play 1 g (Terminal (map lower l) sc)) as [[r1 g1] t1];
      destruct (play 1 g (Terminal l sc)) as [[r2 g2] t2]
  end.
  destruct P as (P1 & P2 & P3 & P4). cbn in *. subst. auto.
Qed.

(** ** Asking for the health *)

(** What is on the terminal has no part in how [railway] ends. *)
Lemma railway_frame g l sc sc' :
  same_end (railway g (Terminal l sc)) (railway g (Terminal l sc')).
Proof.
  destruct g as [n a h go c s].
  unfold same_end, railway, train, the_end, show_health, print, input, emit,
    bind, get, set_stage, set_chance, set_game_over, ret.
  cases; auto.
Qed.

(** X26. Asking for the health costs nothing: at either question, the word
    health followed by an answer that is not health again ends the round
    with the same result, the same globals and the same input left as the
    answer given at once. *)
Theorem asking_health_is_free g h x l sc :
  lower h = chars "health" -> lower x <> chars "health" ->
  same_end (round g (Terminal (h :: x :: l) sc))
           (round g (Terminal (x :: l) sc)) /\
  same_end (railway g (Terminal (h :: x :: l) sc))
           (railway g (Terminal (x :: l) sc)).
Proof.
  intros Hh Hx. apply str_eqb_neq in Hx.
  destruct g as [n a hp go c s]. split.
  - unfold round, the_end, show_health, print, input, emit,
      bind, get, set_stage, set_chance, set_health, set_game_over, ret.
    repeat (simp; rewrite ?Hh, ?Hx, ?str_eqb_refl; simp; split_case); simp;
      try (unfold same_end; simp; now auto).
    all: apply railway_frame.
  - unfold same_end, railway, train, the_end, show_health, print, input, emit,
      bind, get, set_stage, set_chance, set_game_over, ret.
    repeat (simp; rewrite ?Hh, ?Hx, ?str_eqb_refl; simp; split_case); simp;
      auto.
Qed.

Lemma asking_health_is_free_witness :
  same_end (round (Globals (chars "Ann") 15 10 false 0 0)
                  (Terminal [chars "Health"; chars "RIGHT"; chars "girl"] []))
           (round (Globals (chars "Ann") 15 10 false 0 0)
                  (Terminal [chars "RIGHT"; chars "girl"] [])) /\
  same_end (railway (Globals (chars "Ann") 15 10 false 0 0)
                    (Terminal [chars "Health"; chars "RIGHT"; chars "girl"] []))
           (railway (Globals (chars "Ann") 15 10 false 0 0)
                    (Terminal [chars "RIGHT"; chars "girl"] [])).
Proof.
  apply (asking_health_is_free (Globals (chars "Ann") 15 10 false 0 0)
           (chars "Health") (chars "RIGHT") [chars "girl"] []).
  - reflexivity.
  - vm_compute. discriminate.
Defined.

End Adventure.
